(** * The SCI16 animation compositor (GfxAnimate)

    A shallow embedding of the cast compositor of
    [src/engines/gob/pregob/onceupon/abracadabra.h] (the [Sci::GfxAnimate]
    part of that file): the behaviour walk ([invoke]), the list builder and
    sorter ([makeSortedList], [sortHelper]), the geometry resolver ([fill],
    [adjustInvalidCels], [processViewScaling], [applyGlobalScaling],
    [setNsRect]), the signal passes ([update]), the screen reconciler
    ([drawCels], [updateScreen], [restoreAndDelete], [reAnimate]) and the
    frame orchestrator ([kernelAnimate]).

    Machine integers are [Z] with the 16-bit and 8-bit conversions written
    out.  The script heap, the node table and the screen are one explicit
    [World] that every operation threads; calls into the drawing surface are
    recorded, in program order, in the world's call log.  Fatal [error(...)]
    exits and list walks that never end are the [Fatal] and [Timeout]
    outcomes of the [result] monad. *)

From Stdlib Require Import ZArith List Bool Lia Permutation Sorted.
Import ListNotations.
Open Scope Z_scope.

(** ** Machine integers *)

(** Conversion to [int16] (two's complement wrap-around). *)
Definition toInt16 (v : Z) : Z := (v + 32768) mod 65536 - 32768.

(** Conversion to [uint16]. *)
Definition toUint16 (v : Z) : Z := v mod 65536.

(** Conversion to [byte]. *)
Definition toByte (v : Z) : Z := v mod 256.

(** C++ [>>] of a promoted [int] by [n] bits (arithmetic shift). *)
Definition sar (v n : Z) : Z := Z.shiftr v n.

(** [s & m] read as a condition. *)
Definition has (s m : Z) : bool := negb (Z.land s m =? 0).

(** [s &= ~m] on a [uint16]. *)
Definition clearBits (s m : Z) : Z := toUint16 (Z.land s (Z.lnot m)).

(** [s |= m] on a [uint16]. *)
Definition setBits (s m : Z) : Z := toUint16 (Z.lor s m).

(** ** Handles, rectangles, selectors *)

(** Modelled from the spec: [reg_t] is declared in sci/engine/vm_types.h,
    which is not among the sources; the spec calls it an opaque handle into
    the object store.  It is an integer here, [NULL_REG] being 0. *)
Definition reg_t : Type := Z.
Definition NULL_REG : reg_t := 0.
Definition isNull (r : reg_t) : bool := r =? 0.

Record Rect : Type := mkRect
  { left : Z; top : Z; right : Z; bottom : Z }.

Definition setTop (r : Rect) (t : Z) : Rect :=
  mkRect (left r) t (right r) (bottom r).

(** The selectors the compositor reads, writes or invokes. *)
Inductive Selector : Type :=
  | s_view | s_loop | s_cel | s_palette | s_x | s_y | s_z | s_priority
  | s_signal | s_scaleSignal | s_scaleX | s_scaleY | s_maxScale
  | s_vanishingY | s_underBits
  | s_lsLeft | s_lsTop | s_lsRight | s_lsBottom
  | s_nsLeft | s_nsTop | s_nsRight | s_nsBottom
  | s_doit | s_delete_.

Definition Selector_eqb (a b : Selector) : bool :=
  match a, b with
  | s_view, s_view | s_loop, s_loop | s_cel, s_cel | s_palette, s_palette
  | s_x, s_x | s_y, s_y | s_z, s_z | s_priority, s_priority
  | s_signal, s_signal | s_scaleSignal, s_scaleSignal
  | s_scaleX, s_scaleX | s_scaleY, s_scaleY | s_maxScale, s_maxScale
  | s_vanishingY, s_vanishingY | s_underBits, s_underBits
  | s_lsLeft, s_lsLeft | s_lsTop, s_lsTop | s_lsRight, s_lsRight
  | s_lsBottom, s_lsBottom | s_nsLeft, s_nsLeft | s_nsTop, s_nsTop
  | s_nsRight, s_nsRight | s_nsBottom, s_nsBottom
  | s_doit, s_doit | s_delete_, s_delete_ => true
  | _, _ => false
  end.

(** ** The cast entry *)

(** Modelled from the spec: [AnimateEntry] is declared in
    sci/graphics/animate.h, which is not among the sources.  The fields are
    the ones the code uses (spec, section 3, CastEntry); selector and
    coordinate fields are [int16] (the code tests [loopNo < 0] and
    [priority == -1]), the two signal words are [uint16]. *)
Record AnimateEntry : Type := mkEntry
  { givenOrderNo : Z;
    object : reg_t;
    viewId : Z;
    loopNo : Z;
    celNo : Z;
    paletteNo : Z;
    x : Z; y : Z; z : Z;
    priority : Z;
    signal : Z;
    scaleSignal : Z;
    scaleX : Z;
    scaleY : Z;
    celRect : Rect;
    showBitsFlag : bool;
    castHandle : reg_t }.

Definition set_loopNo (e : AnimateEntry) (v : Z) : AnimateEntry :=
  mkEntry (givenOrderNo e) (object e) (viewId e) v (celNo e) (paletteNo e)
    (x e) (y e) (z e) (priority e) (signal e) (scaleSignal e) (scaleX e)
    (scaleY e) (celRect e) (showBitsFlag e) (castHandle e).

Definition set_celNo (e : AnimateEntry) (v : Z) : AnimateEntry :=
  mkEntry (givenOrderNo e) (object e) (viewId e) (loopNo e) v (paletteNo e)
    (x e) (y e) (z e) (priority e) (signal e) (scaleSignal e) (scaleX e)
    (scaleY e) (celRect e) (showBitsFlag e) (castHandle e).

Definition set_priority (e : AnimateEntry) (v : Z) : AnimateEntry :=
  mkEntry (givenOrderNo e) (object e) (viewId e) (loopNo e) (celNo e)
    (paletteNo e) (x e) (y e) (z e) v (signal e) (scaleSignal e) (scaleX e)
    (scaleY e) (celRect e) (showBitsFlag e) (castHandle e).

Definition set_signal (e : AnimateEntry) (v : Z) : AnimateEntry :=
  mkEntry (givenOrderNo e) (object e) (viewId e) (loopNo e) (celNo e)
    (paletteNo e) (x e) (y e) (z e) (priority e) v (scaleSignal e) (scaleX e)
    (scaleY e) (celRect e) (showBitsFlag e) (castHandle e).

Definition set_scale (e : AnimateEntry) (sig sx sy : Z) : AnimateEntry :=
  mkEntry (givenOrderNo e) (object e) (viewId e) (loopNo e) (celNo e)
    (paletteNo e) (x e) (y e) (z e) (priority e) (signal e) sig sx sy
    (celRect e) (showBitsFlag e) (castHandle e).

Definition set_celRect (e : AnimateEntry) (r : Rect) : AnimateEntry :=
  mkEntry (givenOrderNo e) (object e) (viewId e) (loopNo e) (celNo e)
    (paletteNo e) (x e) (y e) (z e) (priority e) (signal e) (scaleSignal e)
    (scaleX e) (scaleY e) r (showBitsFlag e) (castHandle e).

Definition set_showBitsFlag (e : AnimateEntry) (b : bool) : AnimateEntry :=
  mkEntry (givenOrderNo e) (object e) (viewId e) (loopNo e) (celNo e)
    (paletteNo e) (x e) (y e) (z e) (priority e) (signal e) (scaleSignal e)
    (scaleX e) (scaleY e) (celRect e) b (castHandle e).

Definition set_castHandle (e : AnimateEntry) (h : reg_t) : AnimateEntry :=
  mkEntry (givenOrderNo e) (object e) (viewId e) (loopNo e) (celNo e)
    (paletteNo e) (x e) (y e) (z e) (priority e) (signal e) (scaleSignal e)
    (scaleX e) (scaleY e) (celRect e) (showBitsFlag e) h.

(** ** The world outside the compositor *)

(** List nodes and lists of the script heap. *)
Record Node : Type := mkNode { value : reg_t; succ : reg_t }.
Record SciList : Type := mkList { first : reg_t }.

Record Port : Type := mkPort { portRect : Rect; portLeft : Z; portTop : Z }.

Inductive AbortGameState : Type :=
  | kAbortNone | kAbortLoadGame | kAbortRestartGame | kAbortQuitGame.

Definition aborted (a : AbortGameState) : bool :=
  match a with kAbortNone => false | _ => true end.

(** Calls into the collaborators that own the screen, in the order made. *)
Inductive GfxCall : Type :=
  | BitsSave (r : Rect) (mask : Z) (handle : reg_t)
  | BitsRestore (handle : reg_t)
  | BitsFree (handle : reg_t)
  | BitsShow (r : Rect)
  | DrawCel (view loop cel : Z) (r : Rect) (prio pal sx sy : Z)
            (scaleSig : option Z)
  | FillRect (r : Rect) (mask color prio control : Z)
  | SetPort (p : Port)
  | BeginUpdate (p : Port)
  | EndUpdate (p : Port)
  | DelayForPalVary
  | PalVaryUpdate
  | CursorHide
  | CursorShow
  | TransitionsDoit (r : Rect)
  | EventUpdateScreen.

Record World : Type := mkWorld
  { selectors : reg_t -> Selector -> Z;
    nodes : reg_t -> option Node;
    lists : reg_t -> option SciList;
    globalFastCast : reg_t;
    globalCurrentRoom : reg_t;
    abortScriptProcessing : AbortGameState;
    throttleTrigger : bool;
    picNotValid : Z;
    curPort : Port;
    cursorVisible : bool;
    calls : list GfxCall }.

Definition set_selectors (w : World) (s : reg_t -> Selector -> Z) : World :=
  mkWorld s (nodes w) (lists w) (globalFastCast w) (globalCurrentRoom w)
    (abortScriptProcessing w) (throttleTrigger w) (picNotValid w) (curPort w)
    (cursorVisible w) (calls w).

Definition set_calls (w : World) (c : list GfxCall) : World :=
  mkWorld (selectors w) (nodes w) (lists w) (globalFastCast w)
    (globalCurrentRoom w) (abortScriptProcessing w) (throttleTrigger w)
    (picNotValid w) (curPort w) (cursorVisible w) c.

Definition set_curPort (w : World) (p : Port) : World :=
  mkWorld (selectors w) (nodes w) (lists w) (globalFastCast w)
    (globalCurrentRoom w) (abortScriptProcessing w) (throttleTrigger w)
    (picNotValid w) p (cursorVisible w) (calls w).

Definition set_throttleTrigger (w : World) (b : bool) : World :=
  mkWorld (selectors w) (nodes w) (lists w) (globalFastCast w)
    (globalCurrentRoom w) (abortScriptProcessing w) b
    (picNotValid w) (curPort w) (cursorVisible w) (calls w).

(** A call is appended to the log. *)
Definition emit (w : World) (c : GfxCall) : World :=
  set_calls w (calls w ++ [c]).

(** Modelled from the spec: the selector accessors are declared in
    sci/engine/selector.h, which is not among the sources; the spec gives
    [readField(objectRef, fieldName) -> integer] and
    [writeField(objectRef, fieldName, integer)].  [readSelectorValue] and
    [writeSelectorValue] carry a [uint16]; [readSelector] and
    [writeSelector] carry a handle. *)
Definition readSelector (w : World) (obj : reg_t) (s : Selector) : reg_t :=
  selectors w obj s.

Definition readSelectorValue (w : World) (obj : reg_t) (s : Selector) : Z :=
  toUint16 (selectors w obj s).

Definition writeSelector (w : World) (obj : reg_t) (s : Selector) (v : reg_t)
  : World :=
  set_selectors w
    (fun o s' => if (o =? obj) && Selector_eqb s' s then v
                 else selectors w o s').

Definition writeSelectorValue (w : World) (obj : reg_t) (s : Selector) (v : Z)
  : World :=
  writeSelector w obj s (toUint16 v).

(** ** Outcomes *)

Inductive Failure : Type :=
  | GlobalScalingPanic       (* error("global scaling panic") *)
  | NonListParameter         (* error("kAnimate called with non-list ...") *)
  | InvalidNodeReference.    (* lookupNode on a discarded reference *)

Inductive result (A : Type) : Type :=
  | Ret (a : A)
  | Fatal (f : Failure)
  | Timeout.
Arguments Ret {A} a.
Arguments Fatal {A} f.
Arguments Timeout {A}.

Definition bind {A B : Type} (m : result A) (k : A -> result B) : result B :=
  match m with
  | Ret a => k a
  | Fatal f => Fatal f
  | Timeout => Timeout
  end.

Notation "x <- m ;; k" := (bind m (fun x => k))
  (at level 61, m at next level, right associativity).
Notation "' pat <- m ;; k" := (bind m (fun x => match x with pat => k end))
  (at level 61, pat pattern, m at next level, right associativity).

(** Modelled from the spec: [SegManager::lookupNode] is not among the
    sources; the spec gives a node-by-handle lookup with an allow-missing
    mode.  A null address is no node; a discarded reference is no node when
    missing nodes are allowed and a fatal error otherwise. *)
Definition lookupNode (w : World) (addr : reg_t) (stopOnDiscarded : bool)
  : result (option Node) :=
  if isNull addr then Ret None
  else match nodes w addr with
       | Some n => Ret (Some n)
       | None => if stopOnDiscarded then Fatal InvalidNodeReference
                 else Ret None
       end.

(** ** Collaborators *)

(** A decoded view as [GfxCache::getView] hands it out (sci/graphics/view.h
    is not among the sources; the spec lists loop count, cel count, cel
    height, a scalability flag and the rectangle computations). *)
Record GfxView : Type := mkView
  { getLoopCount : Z;
    getCelCount : Z -> Z;
    getHeight : Z -> Z -> Z;
    isScaleable : bool;
    getCelRect : Z -> Z -> Z -> Z -> Z -> Rect;
    getCelScaledRect : Z -> Z -> Z -> Z -> Z -> Z -> Z -> Rect;
    getCelSpecialHoyle4Rect : Z -> Z -> Z -> Z -> Z -> Rect -> Rect }.

(** Everything the compositor takes from declarations and collaborators that
    are not among the sources: the signal masks of sci/graphics/animate.h,
    the screen masks, the interpreter version and its thresholds, the game
    identity, the fast-cast detection result, the view cache, the port's
    priority bands, [CLIP] and [Common::Rect]'s operations, [Common::sort],
    the handle [bitsSave] returns (a function of the calls made so far), the
    script interpreter behind [invokeSelector] and the transition player. *)
Record Environment : Type := mkEnv
  { kSignalStopUpdate : Z;
    kSignalViewUpdated : Z;
    kSignalNoUpdate : Z;
    kSignalHidden : Z;
    kSignalFixedPriority : Z;
    kSignalAlwaysUpdate : Z;
    kSignalForceUpdate : Z;
    kSignalRemoveView : Z;
    kSignalFrozen : Z;
    kSignalIgnoreActor : Z;
    kSignalDisposeMe : Z;
    kScaleSignalDoScaling : Z;
    kScaleSignalGlobalScaling : Z;
    kScaleSignalHoyle4SpecialHandling : Z;
    GFX_SCREEN_MASK_VISUAL : Z;
    GFX_SCREEN_MASK_PRIORITY : Z;
    GFX_SCREEN_MASK_CONTROL : Z;
    GFX_SCREEN_MASK_ALL : Z;
    getSciVersion : Z;
    SCI_VERSION_1_EGA_ONLY : Z;
    SCI_VERSION_1_1 : Z;
    gameIsHoyle4 : bool;
    fastCastEnabled : bool;
    getView : Z -> GfxView;
    kernelCoordinateToPriority : Z -> Z;
    kernelPriorityToCoordinate : Z -> Z;
    picWind : Port;
    CLIP : Z -> Z -> Z -> Z;
    rectClip : Rect -> Rect -> Rect;
    rectExtend : Rect -> Rect -> Rect;
    rectIsEmpty : Rect -> bool;
    rectTranslate : Rect -> Z -> Z -> Rect;
    sort : (AnimateEntry -> AnimateEntry -> bool) ->
           list AnimateEntry -> list AnimateEntry;
    newBits : list GfxCall -> Rect -> Z -> reg_t;
    invokeSelector : World -> reg_t -> Selector -> World;
    transitionsDoit : Rect -> World -> World }.

(** The compositor's own members. *)
Record GfxAnimate : Type := mkAnimate
  { a_list : list AnimateEntry;
    a_lastCastData : list AnimateEntry }.

(** Sample data for the concrete instances below: the mask values of SCI16,
    a view with four loops of six cels, 40 pixels high. *)
Definition sampleRect : Rect := mkRect 0 0 10 40.

Definition sampleView : GfxView :=
  mkView 4 (fun _ => 6) (fun _ _ => 40) true
    (fun _ _ x y _ => mkRect x (y - 40) (x + 10) y)
    (fun _ _ x y _ _ _ => mkRect x (y - 40) (x + 10) y)
    (fun _ _ _ _ _ r => r).

Definition samplePort : Port := mkPort (mkRect 0 0 320 200) 0 10.

(** Insertion before the first strictly greater element: a stable sort. *)
Fixpoint insertSorted (lt : AnimateEntry -> AnimateEntry -> bool)
    (e : AnimateEntry) (l : list AnimateEntry) : list AnimateEntry :=
  match l with
  | [] => [e]
  | h :: t => if lt e h then e :: h :: t else h :: insertSorted lt e t
  end.

Definition insertionSort (lt : AnimateEntry -> AnimateEntry -> bool)
    (l : list AnimateEntry) : list AnimateEntry :=
  fold_left (fun acc e => insertSorted lt e acc) l [].

(** A script interpreter whose methods do nothing. *)
Definition idleScripts (w : World) (_ : reg_t) (_ : Selector) : World := w.

Definition sampleEnv (scripts : World -> reg_t -> Selector -> World)
    (fastCast : bool) : Environment :=
  mkEnv 1 2 4 8 16 32 64 128 256 16384 32768
        1 2 4
        1 2 4 7
        10 5 10
        false fastCast
        (fun _ => sampleView)
        (fun y => y / 20) (fun p => p * 20)
        samplePort
        (fun v lo hi => if v <? lo then lo else if v >? hi then hi else v)
        (fun a b => mkRect (Z.max (left a) (left b)) (Z.max (top a) (top b))
                           (Z.min (right a) (right b))
                           (Z.min (bottom a) (bottom b)))
        (fun a b => mkRect (Z.min (left a) (left b)) (Z.min (top a) (top b))
                           (Z.max (right a) (right b))
                           (Z.max (bottom a) (bottom b)))
        (fun r => (right r <=? left r) || (bottom r <=? top r))
        (fun r dx dy => mkRect (left r + dx) (top r + dy)
                               (right r + dx) (bottom r + dy))
        insertionSort
        (fun cs _ _ => 1000 + Z.of_nat (length cs))
        scripts
        (fun _ w => w).

Definition emptyWorld : World :=
  mkWorld (fun _ _ => 0) (fun _ => None) (fun _ => None) 0 0 kAbortNone
          false 0 samplePort true [].


(** A cast member read from object [obj] standing at height [ey], with the
    given signal words. *)
Definition sampleEntry (obj ey sig scaleSig : Z) : AnimateEntry :=
  mkEntry 0 obj 7 0 0 0 50 ey 0 0 sig scaleSig 128 128 sampleRect false
          NULL_REG.


(** A mask that fits a [uint16] signal word. *)
Definition mask16 (m : Z) : Prop := 0 <= m < 65536.

(** Two masks that share no bit. *)
Definition disjoint (m m' : Z) : Prop := Z.land m m' = 0.

(** A step that only appends to the call log. *)
Definition logsOnly (step : World -> AnimateEntry -> AnimateEntry * World)
  : Prop :=
  forall w e, exists post, calls (snd (step w e)) = calls w ++ post.

(** A well-formed list: the walk from address [addr] along the [succ] links
    visits the objects [objs] and ends at the null address. *)
Inductive Traversal (w : World) : reg_t -> list reg_t -> Prop :=
  | Traversal_end : Traversal w NULL_REG []
  | Traversal_node (addr : reg_t) (n : Node) (objs : list reg_t) :
      isNull addr = false ->
      nodes w addr = Some n ->
      Traversal w (succ n) objs ->
      Traversal w addr (value n :: objs).

(** What [Common::sort] asks of its comparator. *)
Definition strictWeakOrder (lt : AnimateEntry -> AnimateEntry -> bool) : Prop :=
  (forall a, lt a a = false)
  /\ (forall a b c, lt a b = true -> lt b c = true -> lt a c = true)
  /\ (forall a b c, lt a b = false -> lt b c = false -> lt a c = false).


(** A list of [n] nodes at the addresses 1 to [n], the node at address [k]
    holding object [k]; every selector of every object reads 0. *)
Definition chainWorld (n : Z) : World :=
  mkWorld (fun _ _ => 0)
          (fun a => if (1 <=? a) && (a <=? n)
                    then Some (mkNode a (if a =? n then 0 else a + 1))
                    else None)
          (fun r => if r =? 1 then Some (mkList 1) else None)
          0 0 kAbortNone false 0 samplePort true [].

Fixpoint chainFrom (k : Z) (count : nat) : list reg_t :=
  match count with
  | O => []
  | S c => k :: chainFrom (k + 1) c
  end.


(** The idle interpreter without fast cast. *)
Definition plainEnv : Environment := sampleEnv idleScripts false.

(** A script interpreter in which every [doit] starts loading a saved
    game: it raises the abort flag and touches nothing else. *)
Definition loadingScripts (w : World) (_ : reg_t) (s : Selector) : World :=
  match s with
  | s_doit =>
      mkWorld (selectors w) (nodes w) (lists w) (globalFastCast w)
        (globalCurrentRoom w) kAbortLoadGame (throttleTrigger w)
        (picNotValid w) (curPort w) (cursorVisible w) (calls w)
  | _ => w
  end.

(** A script interpreter in which disposing of object 2 sets bit 4
    (NoUpdate in the sample masks) in the signal of object 1. *)
Definition meddlingScripts (w : World) (obj : reg_t) (s : Selector) : World :=
  match s with
  | s_delete_ =>
      if obj =? 2 then
        writeSelectorValue w 1 s_signal
          (Z.lor (readSelectorValue w 1 s_signal) 4)
      else w
  | _ => w
  end.


(** [emptyWorld] with the picture marked not valid at level [level] and
    background 77 stored in object 1. *)
Definition staleWorld (level : Z) : World :=
  writeSelector
    (mkWorld (fun _ _ => 0) (fun _ => None) (fun _ => None) 0 0 kAbortNone
             false level samplePort true [])
    1 s_underBits 77.

(** The interpreter in which every [doit] aborts script processing. *)
Definition abortEnv : Environment := sampleEnv loadingScripts false.

(** The interpreter in which disposing of object 2 meddles with object 1. *)
Definition meddleEnv : Environment := sampleEnv meddlingScripts false.



(** The number of cels drawn by a sequence of calls. *)
Fixpoint drawCount (cs : list GfxCall) : nat :=
  match cs with
  | [] => O
  | DrawCel _ _ _ _ _ _ _ _ _ :: t => S (drawCount t)
  | _ :: t => drawCount t
  end.

(** A world in which the objects 1, 2 and 3 hold the backgrounds 71, 72
    and 73. *)
Definition threeBackgrounds : World :=
  writeSelector
    (writeSelector (writeSelector emptyWorld 1 s_underBits 71)
       2 s_underBits 72)
    3 s_underBits 73.

(** The rectangle an object was last shown at, as [updateScreen] reads
    it. *)
Definition lastShownRect (w : World) (obj : reg_t) : Rect :=
  mkRect (toInt16 (readSelectorValue w obj s_lsLeft))
         (toInt16 (readSelectorValue w obj s_lsTop))
         (toInt16 (readSelectorValue w obj s_lsRight))
         (toInt16 (readSelectorValue w obj s_lsBottom)).

(** The selectors a script may rely on the static compositor to leave alone:
    the cel selection, the priority, the signal and the saved background. *)
Definition castSelectors : list Selector :=
  [s_loop; s_cel; s_priority; s_signal; s_underBits].

(** From [w] to [w'] only the call log grew, by calls that draw [n] cels,
    and selectors other than [castSelectors] were written. *)
Definition paints (n : nat) (w w' : World) : Prop :=
  (forall o s, In s castSelectors -> selectors w' o s = selectors w o s)
  /\ nodes w' = nodes w
  /\ picNotValid w' = picNotValid w
  /\ curPort w' = curPort w
  /\ exists delta, calls w' = calls w ++ delta /\ drawCount delta = n.

(** The fields of an entry that say which cel of which object it is. *)
Definition sameCel (e e' : AnimateEntry) : Prop :=
  givenOrderNo e' = givenOrderNo e /\ object e' = object e
  /\ viewId e' = viewId e /\ loopNo e' = loopNo e /\ celNo e' = celNo e
  /\ paletteNo e' = paletteNo e /\ x e' = x e /\ y e' = y e /\ z e' = z e
  /\ signal e' = signal e.

(** The fields by which an entry is identified and ordered. *)
Definition sameKeys (e e' : AnimateEntry) : Prop :=
  givenOrderNo e' = givenOrderNo e /\ object e' = object e
  /\ viewId e' = viewId e /\ x e' = x e /\ y e' = y e /\ z e' = z e.

(** [chainWorld] in which every selector of every object reads 256 (Frozen
    in the sample masks). *)
Definition frozenWorld (n : Z) : World :=
  mkWorld (fun _ _ => 256) (nodes (chainWorld n)) (lists (chainWorld n))
    0 0 kAbortNone false 0 samplePort true [].

Section Animate.

Context (E : Environment).

(** ** Behaviour walk *)

Definition disposeLastCast (a : GfxAnimate) : GfxAnimate :=
  mkAnimate (a_list a) [].

(** One turn of the [while (curNode)] loop of [invoke] per unit of fuel. *)
Fixpoint invokeLoop (fuel : nat) (w : World) (curAddress : reg_t)
    (curNode : option Node) : result (bool * World) :=
  match curNode with
  | None => Ret (true, w)
  | Some node =>
    match fuel with
    | O => Timeout
    | S fuel' =>
      let curObject := value node in
      if fastCastEnabled E && negb (isNull (globalFastCast w)) then
        Ret (false, w)
      else
        let signal := readSelectorValue w curObject s_signal in
        if negb (has signal (kSignalFrozen E)) then
          let w1 := invokeSelector E w curObject s_doit in
          if aborted (abortScriptProcessing w1) then Ret (true, w1)
          else
            again <- lookupNode w1 curAddress false ;;
            match again with
            | Some node' =>
                next <- lookupNode w1 (succ node') true ;;
                invokeLoop fuel' w1 (succ node') next
            | None => invokeLoop fuel' w1 curAddress None
            end
        else
          next <- lookupNode w (succ node) true ;;
          invokeLoop fuel' w (succ node) next
    end
  end.

Definition invoke (fuel : nat) (w : World) (list : SciList)
  : result (bool * World) :=
  curNode <- lookupNode w (first list) true ;;
  invokeLoop fuel w (first list) curNode.

(** ** List builder and sorter *)

Definition sortHelper (entry1 entry2 : AnimateEntry) : bool :=
  if y entry1 =? y entry2 then
    if z entry1 =? z entry2 then givenOrderNo entry1 <? givenOrderNo entry2
    else z entry1 <? z entry2
  else y entry1 <? y entry2.

(** The entry [makeSortedList] reads from one list object. *)
Definition readEntry (w : World) (curObject : reg_t) (listNr : Z)
  : AnimateEntry :=
  let rd s := readSelectorValue w curObject s in
  let scaling := getSciVersion E >=? SCI_VERSION_1_1 E in
  let scaleSignal := if scaling then rd s_scaleSignal else 0 in
  let doScaling := scaling && has scaleSignal (kScaleSignalDoScaling E) in
  mkEntry listNr curObject (rd s_view)
    (toInt16 (rd s_loop)) (toInt16 (rd s_cel)) (toInt16 (rd s_palette))
    (toInt16 (rd s_x)) (toInt16 (rd s_y)) (toInt16 (rd s_z))
    (toInt16 (rd s_priority)) (rd s_signal) scaleSignal
    (if doScaling then toInt16 (rd s_scaleX) else 128)
    (if doScaling then toInt16 (rd s_scaleY) else 128)
    (mkRect 0 0 0 0) false NULL_REG.

(** The fill loop of [makeSortedList]; [listNr] is an [int16]. *)
Fixpoint fillList (fuel : nat) (w : World) (curNode : option Node)
    (listNr : Z) (acc : list AnimateEntry) : result (list AnimateEntry) :=
  match curNode with
  | None => Ret acc
  | Some node =>
    match fuel with
    | O => Timeout
    | S fuel' =>
      let listEntry := readEntry w (value node) listNr in
      next <- lookupNode w (succ node) true ;;
      fillList fuel' w next (toInt16 (listNr + 1)) (acc ++ [listEntry])
    end
  end.

Definition makeSortedList (fuel : nat) (w : World) (list : SciList)
  : result GfxAnimate :=
  curNode <- lookupNode w (first list) true ;;
  entries <- fillList fuel w curNode 0 [] ;;
  Ret (mkAnimate (sort E sortHelper entries) []).

(** ** Geometry and scaling resolver *)

Definition adjustInvalidCels (view : GfxView) (w : World) (e : AnimateEntry)
  : AnimateEntry * World :=
  let viewLoopCount := toInt16 (getLoopCount view) in
  let '(e1, w1) :=
    if loopNo e >=? viewLoopCount then
      (set_loopNo e 0, writeSelectorValue w (object e) s_loop 0)
    else if loopNo e <? 0 then
      (set_loopNo e (toInt16 (viewLoopCount - 1)), w)
    else (e, w) in
  let viewCelCount := toInt16 (getCelCount view (loopNo e1)) in
  if celNo e1 >=? viewCelCount then
    (set_celNo e1 0, writeSelectorValue w1 (object e1) s_cel 0)
  else if celNo e1 <? 0 then
    (set_celNo e1 (toInt16 (viewCelCount - 1)), w1)
  else (e1, w1).

Definition applyGlobalScaling (view : GfxView) (w : World) (entry : AnimateEntry)
  : result (AnimateEntry * World) :=
  let maxScale := toInt16 (readSelectorValue w (object entry) s_maxScale) in
  let celHeight := toInt16 (getHeight view (loopNo entry) (celNo entry)) in
  let maxCelHeight := toInt16 (sar (maxScale * celHeight) 7) in
  let globalVar2 := globalCurrentRoom w in
  let vanishingY := toInt16 (readSelectorValue w globalVar2 s_vanishingY) in
  let fixedPortY := toInt16 (bottom (portRect (curPort w)) - vanishingY) in
  let fixedEntryY0 := toInt16 (y entry - vanishingY) in
  let fixedEntryY := if fixedEntryY0 =? 0 then 1 else fixedEntryY0 in
  if (celHeight =? 0) || (fixedPortY =? 0) then Fatal GlobalScalingPanic
  else
    let scaleY1 := toInt16 (Z.quot (maxCelHeight * fixedEntryY) fixedPortY) in
    let scaleY2 := toInt16 (Z.quot (scaleY1 * 128) celHeight) in
    let entry' := set_scale entry (scaleSignal entry) scaleY2 scaleY2 in
    let w1 := writeSelectorValue w (object entry) s_scaleX scaleY2 in
    let w2 := writeSelectorValue w1 (object entry) s_scaleY scaleY2 in
    Ret (entry', w2).

Definition processViewScaling (view : GfxView) (w : World) (e : AnimateEntry)
  : result (AnimateEntry * World) :=
  if negb (isScaleable view) then Ret (set_scale e 0 128 128, w)
  else if has (scaleSignal e) (kScaleSignalDoScaling E)
          && has (scaleSignal e) (kScaleSignalGlobalScaling E)
       then applyGlobalScaling view w e
       else Ret (e, w).

(** Modelled from the spec: [GfxCompare::getNSRect] and [setNSRect] are not
    among the sources; the spec has the draw rectangle published to the
    object's tracked bounding box, here its four [ns] selectors. *)
Definition getNSRect (w : World) (obj : reg_t) : Rect :=
  mkRect (toInt16 (readSelectorValue w obj s_nsLeft))
         (toInt16 (readSelectorValue w obj s_nsTop))
         (toInt16 (readSelectorValue w obj s_nsRight))
         (toInt16 (readSelectorValue w obj s_nsBottom)).

Definition setNSRect (w : World) (obj : reg_t) (r : Rect) : World :=
  let w1 := writeSelectorValue w obj s_nsLeft (left r) in
  let w2 := writeSelectorValue w1 obj s_nsTop (top r) in
  let w3 := writeSelectorValue w2 obj s_nsRight (right r) in
  writeSelectorValue w3 obj s_nsBottom (bottom r).

Definition setNsRect (view : GfxView) (w : World) (e : AnimateEntry)
  : AnimateEntry * World :=
  let '(e1, shouldSetNsRect) :=
    if has (scaleSignal e) (kScaleSignalDoScaling E) then
      (set_celRect e (getCelScaledRect view (loopNo e) (celNo e) (x e) (y e)
                        (z e) (scaleX e) (scaleY e)),
       negb (has (signal e) (kSignalHidden E)
             && negb (has (signal e) (kSignalAlwaysUpdate E))))
    else if gameIsHoyle4 E
            && has (scaleSignal e) (kScaleSignalHoyle4SpecialHandling E) then
      (set_celRect e (getCelSpecialHoyle4Rect view (loopNo e) (celNo e) (x e)
                        (y e) (z e) (getNSRect w (object e))),
       false)
    else
      (set_celRect e (getCelRect view (loopNo e) (celNo e) (x e) (y e) (z e)),
       true) in
  (e1, if shouldSetNsRect then setNSRect w (object e1) (celRect e1) else w).

(** The condition under which [fill] increments [old_picNotValid]. *)
Definition fillInvalidates (signal : Z) : bool :=
  if has signal (kSignalNoUpdate E) then
    has signal (Z.lor (kSignalForceUpdate E) (kSignalViewUpdated E))
    || (has signal (kSignalHidden E) && negb (has signal (kSignalRemoveView E)))
    || (negb (has signal (kSignalHidden E)) && has signal (kSignalRemoveView E))
    || has signal (kSignalAlwaysUpdate E)
  else
    has signal (kSignalStopUpdate E) || has signal (kSignalAlwaysUpdate E).

(** The body of the loop of [fill]; the counter is a [byte]. *)
Definition fillEntry (w : World) (old_picNotValid : Z) (e : AnimateEntry)
  : result (AnimateEntry * World * Z) :=
  let view := getView E (viewId e) in
  let '(e1, w1) := adjustInvalidCels view w e in
  '(e2, w2) <- processViewScaling view w1 e1 ;;
  let '(e3, w3) := setNsRect view w2 e2 in
  let '(e4, w4) :=
    if negb (has (signal e3) (kSignalFixedPriority E)) then
      let p := toInt16 (kernelCoordinateToPriority E (y e3)) in
      (set_priority e3 p, writeSelectorValue w3 (object e3) s_priority p)
    else (e3, w3) in
  let counter :=
    if fillInvalidates (signal e4) then toByte (old_picNotValid + 1)
    else old_picNotValid in
  let e5 :=
    if has (signal e4) (kSignalNoUpdate E)
    then set_signal e4 (clearBits (signal e4) (kSignalStopUpdate E))
    else set_signal e4 (clearBits (signal e4) (kSignalForceUpdate E)) in
  Ret (e5, w4, counter).

Fixpoint fillLoop (l : list AnimateEntry) (w : World) (old_picNotValid : Z)
  : result (list AnimateEntry * World * Z) :=
  match l with
  | [] => Ret ([], w, old_picNotValid)
  | e :: rest =>
      '(e', w1, c1) <- fillEntry w old_picNotValid e ;;
      '(rest', w2, c2) <- fillLoop rest w1 c1 ;;
      Ret (e' :: rest', w2, c2)
  end.

Definition fill (a : GfxAnimate) (w : World) (old_picNotValid : Z)
  : result (GfxAnimate * World * Z) :=
  '(l, w', c) <- fillLoop (a_list a) w old_picNotValid ;;
  Ret (mkAnimate l (a_lastCastData a), w', c).

(** ** Iteration over the working list *)

(** A forward loop that updates each entry in place. *)
Fixpoint forEach (step : World -> AnimateEntry -> AnimateEntry * World)
    (l : list AnimateEntry) (w : World) : list AnimateEntry * World :=
  match l with
  | [] => ([], w)
  | e :: rest =>
      let '(e', w1) := step w e in
      let '(rest', w2) := forEach step rest w1 in
      (e' :: rest', w2)
  end.

(** The same loop from [reverse_begin()] down: entries are visited last to
    first and stay at their positions. *)
Definition forEachRev (step : World -> AnimateEntry -> AnimateEntry * World)
    (l : list AnimateEntry) (w : World) : list AnimateEntry * World :=
  let '(l', w') := forEach step (rev l) w in (rev l', w').

Definition bitsSave (w : World) (r : Rect) (mask : Z) : reg_t * World :=
  let h := newBits E (calls w) r mask in
  (h, emit w (BitsSave r mask h)).

(** ** Signal passes *)

(** The strip [update] fills in the control plane below a drawn cel. *)
Definition priorityStrip (e : AnimateEntry) : Rect :=
  setTop (celRect e)
    (CLIP E (toInt16 (kernelPriorityToCoordinate E (priority e) - 1))
            (top (celRect e)) (toInt16 (bottom (celRect e) - 1))).

Definition drawEntry (w : World) (e : AnimateEntry) : World :=
  emit w (DrawCel (viewId e) (loopNo e) (celNo e) (celRect e) (priority e)
            (paletteNo e) (scaleX e) (scaleY e) None).

Definition markPriority (w : World) (e : AnimateEntry) : World :=
  if negb (has (signal e) (kSignalIgnoreActor E)) then
    emit w (FillRect (priorityStrip e) (GFX_SCREEN_MASK_CONTROL E) 0 0 15)
  else w.

(** First loop of [update]: remove all no-update cels. *)
Definition updateRemove (w : World) (e : AnimateEntry) : AnimateEntry * World :=
  if has (signal e) (kSignalNoUpdate E) then
    let '(e1, w1) :=
      if negb (has (signal e) (kSignalRemoveView E)) then
        let bitsHandle := readSelector w (object e) s_underBits in
        let '(e', w') :=
          if negb (picNotValid w =? 1) then
            (set_showBitsFlag e true, emit w (BitsRestore bitsHandle))
          else (e, emit w (BitsFree bitsHandle)) in
        (e', writeSelectorValue w' (object e) s_underBits 0)
      else (e, w) in
    let s1 := clearBits (signal e1) (kSignalForceUpdate E) in
    let s2 :=
      if has s1 (kSignalViewUpdated E) then
        clearBits s1 (Z.lor (kSignalViewUpdated E) (kSignalNoUpdate E))
      else s1 in
    (set_signal e1 s2, w1)
  else if has (signal e) (kSignalStopUpdate E) then
    (set_signal e (setBits (clearBits (signal e) (kSignalStopUpdate E))
                           (kSignalNoUpdate E)), w)
  else (e, w).

(** Second loop: draw always-update cels. *)
Definition updateAlways (w : World) (e : AnimateEntry) : AnimateEntry * World :=
  if has (signal e) (kSignalAlwaysUpdate E) then
    let w1 := drawEntry w e in
    let e1 := set_showBitsFlag e true in
    let e2 :=
      set_signal e1
        (clearBits (signal e1)
           (Z.lor (Z.lor (Z.lor (kSignalStopUpdate E) (kSignalViewUpdated E))
                         (kSignalNoUpdate E)) (kSignalForceUpdate E))) in
    (e2, markPriority w1 e2)
  else (e, w).

(** Third loop: save the background of all no-update cels. *)
Definition updateSave (w : World) (e : AnimateEntry) : AnimateEntry * World :=
  if has (signal e) (kSignalNoUpdate E) then
    if has (signal e) (kSignalHidden E) then
      (set_signal e (setBits (signal e) (kSignalRemoveView E)), w)
    else
      let e1 := set_signal e (clearBits (signal e) (kSignalRemoveView E)) in
      let mask :=
        if has (signal e1) (kSignalIgnoreActor E)
        then Z.lor (GFX_SCREEN_MASK_VISUAL E) (GFX_SCREEN_MASK_PRIORITY E)
        else GFX_SCREEN_MASK_ALL E in
      let '(bitsHandle, w1) := bitsSave w (celRect e1) mask in
      (e1, writeSelector w1 (object e1) s_underBits bitsHandle)
  else (e, w).

(** Fourth loop: draw the no-update cels. *)
Definition updateDraw (w : World) (e : AnimateEntry) : AnimateEntry * World :=
  if has (signal e) (kSignalNoUpdate E)
     && negb (has (signal e) (kSignalHidden E)) then
    let w1 := drawEntry w e in
    let e1 := set_showBitsFlag e true in
    (e1, markPriority w1 e1)
  else (e, w).

Definition update (a : GfxAnimate) (w : World) : GfxAnimate * World :=
  let '(l1, w1) := forEachRev updateRemove (a_list a) w in
  let '(l2, w2) := forEach updateAlways l1 w1 in
  let '(l3, w3) := forEach updateSave l2 w2 in
  let '(l4, w4) := forEach updateDraw l3 w3 in
  (mkAnimate l4 (a_lastCastData a), w4).

(** ** Screen reconciler *)

Definition drawCelsEntry (w : World) (e : AnimateEntry)
  : AnimateEntry * World * list AnimateEntry :=
  if negb (has (signal e)
             (Z.lor (Z.lor (kSignalNoUpdate E) (kSignalHidden E))
                    (kSignalAlwaysUpdate E))) then
    let '(bitsHandle, w1) := bitsSave w (celRect e) (GFX_SCREEN_MASK_ALL E) in
    let w2 := writeSelector w1 (object e) s_underBits bitsHandle in
    let w3 :=
      emit w2 (DrawCel (viewId e) (loopNo e) (celNo e) (celRect e)
                 (priority e) (paletteNo e) (scaleX e) (scaleY e)
                 (Some (scaleSignal e))) in
    let e1 := set_showBitsFlag e true in
    let e2 :=
      if has (signal e1) (kSignalRemoveView E)
      then set_signal e1 (clearBits (signal e1) (kSignalRemoveView E))
      else e1 in
    (e2, w3, [e2])
  else (e, w, []).

Fixpoint drawCelsLoop (l : list AnimateEntry) (w : World)
  : list AnimateEntry * World * list AnimateEntry :=
  match l with
  | [] => ([], w, [])
  | e :: rest =>
      let '(e', w1, cast1) := drawCelsEntry w e in
      let '(rest', w2, cast2) := drawCelsLoop rest w1 in
      (e' :: rest', w2, cast1 ++ cast2)
  end.

Definition drawCels (a : GfxAnimate) (w : World) : GfxAnimate * World :=
  let '(l, w', cast) := drawCelsLoop (a_list a) w in
  (mkAnimate l cast, w').

Definition updateScreenEntry (oldPicNotValid : Z) (w : World)
    (e : AnimateEntry) : AnimateEntry * World :=
  let s := signal e in
  if showBitsFlag e
     || negb (has s (Z.lor (kSignalRemoveView E) (kSignalNoUpdate E))
              || (negb (has s (kSignalRemoveView E))
                  && has s (kSignalNoUpdate E)
                  && negb (oldPicNotValid =? 0))) then
    let lsRect :=
      mkRect (toInt16 (readSelectorValue w (object e) s_lsLeft))
             (toInt16 (readSelectorValue w (object e) s_lsTop))
             (toInt16 (readSelectorValue w (object e) s_lsRight))
             (toInt16 (readSelectorValue w (object e) s_lsBottom)) in
    let '(workerRect, w1) :=
      if negb (rectIsEmpty E (rectClip E lsRect (celRect e))) then
        (rectExtend E lsRect (celRect e), w)
      else (celRect e, emit w (BitsShow lsRect)) in
    let w2 := writeSelectorValue w1 (object e) s_lsLeft (left (celRect e)) in
    let w3 := writeSelectorValue w2 (object e) s_lsTop (top (celRect e)) in
    let w4 := writeSelectorValue w3 (object e) s_lsRight (right (celRect e)) in
    let w5 :=
      writeSelectorValue w4 (object e) s_lsBottom (bottom (celRect e)) in
    let w6 := emit w5 (BitsShow workerRect) in
    (if has s (kSignalHidden E)
     then set_signal e (setBits s (kSignalRemoveView E)) else e, w6)
  else (e, w).

Definition updateScreen (a : GfxAnimate) (w : World) (oldPicNotValid : Z)
  : GfxAnimate * World :=
  let '(l, w') := forEach (updateScreenEntry oldPicNotValid) (a_list a) w in
  (mkAnimate l (a_lastCastData a), w').

(** First loop of [restoreAndDelete]: write every signal back. *)
Definition writeSignal (w : World) (e : AnimateEntry) : AnimateEntry * World :=
  (e, writeSelectorValue w (object e) s_signal (signal e)).

(** Second loop, per entry: re-read the signal, restore, dispose. *)
Definition restoreEntry (w : World) (e : AnimateEntry) : AnimateEntry * World :=
  let s := readSelectorValue w (object e) s_signal in
  let e1 := set_signal e s in
  let w1 :=
    if Z.land s (Z.lor (kSignalNoUpdate E) (kSignalRemoveView E)) =? 0 then
      writeSelectorValue
        (emit w (BitsRestore (readSelector w (object e) s_underBits)))
        (object e) s_underBits 0
    else w in
  let w2 :=
    if has s (kSignalDisposeMe E)
    then invokeSelector E w1 (object e) s_delete_ else w1 in
  (e1, w2).

Definition restoreAndDelete (a : GfxAnimate) (w : World) : GfxAnimate * World :=
  let '(l1, w1) := forEach writeSignal (a_list a) w in
  let '(l2, w2) := forEachRev restoreEntry l1 w1 in
  (mkAnimate l2 (a_lastCastData a), w2).

(** First loop of [reAnimate], per entry: save and draw. *)
Definition reAnimateSave (w : World) (e : AnimateEntry) : AnimateEntry * World :=
  let '(h, w1) :=
    bitsSave w (celRect e)
      (Z.lor (GFX_SCREEN_MASK_VISUAL E) (GFX_SCREEN_MASK_PRIORITY E)) in
  let e1 := set_castHandle e h in
  (e1, drawEntry w1 e1).

(** Second loop, per entry, walked from the end: restore. *)
Definition reAnimateRestore (w : World) (e : AnimateEntry)
  : AnimateEntry * World :=
  (e, emit w (BitsRestore (castHandle e))).

Definition reAnimate (a : GfxAnimate) (w : World) (rect : Rect)
  : GfxAnimate * World :=
  match a_lastCastData a with
  | _ :: _ =>
      let '(cast1, w1) := forEach reAnimateSave (a_lastCastData a) w in
      let w2 := emit w1 (BitsShow rect) in
      let '(cast2, w3) := forEachRev reAnimateRestore cast1 w2 in
      (mkAnimate (a_list a) cast2, w3)
  | [] => (a, emit w (BitsShow rect))
  end.

(** ** Frame orchestrator *)

Definition animateShowPic (w : World) : World :=
  let picPort := picWind E in
  let previousCursorState := cursorVisible w in
  let w1 := if previousCursorState then emit w CursorHide else w in
  let picRect :=
    rectTranslate E (portRect picPort) (portLeft picPort) (portTop picPort) in
  let w2 := transitionsDoit E picRect (emit w1 (TransitionsDoit picRect)) in
  if previousCursorState then emit w2 CursorShow else w2.

Definition setPort (w : World) (p : Port) : Port * World :=
  (curPort w, set_curPort (emit w (SetPort p)) p).

(** Modelled from the spec: [SegManager::lookupList] is not among the
    sources; a handle that resolves to no list is the fatal scripting error
    of the spec's section 4.1. *)
Definition lookupList (w : World) (ref : reg_t) : result SciList :=
  match lists w ref with
  | Some l => Ret l
  | None => Fatal NonListParameter
  end.

(** [kernelAnimate] after the behaviour walk: the frame proper. *)
Definition animateFrame (fuel : nat) (a : GfxAnimate) (w : World)
    (list : SciList) (old_picNotValid : Z) : result (GfxAnimate * World) :=
  let '(oldPort, w1) := setPort w (picWind E) in
  let a1 := disposeLastCast a in
  a2 <- makeSortedList fuel w1 list ;;
  '(a3, w3, old') <- fill a2 w1 old_picNotValid ;;
  let '(a4, w4) :=
    if negb (old' =? 0) then
      let versioned := getSciVersion E >=? SCI_VERSION_1_EGA_ONLY E in
      let wb := if versioned then emit w3 (BeginUpdate (picWind E)) else w3 in
      let '(au, wu) := update a3 wb in
      (au, if versioned then emit wu (EndUpdate (picWind E)) else wu)
    else (a3, w3) in
  let '(a5, w5) := drawCels a4 w4 in
  let w6 := if negb (picNotValid w5 =? 0) then animateShowPic w5 else w5 in
  let '(a7, w7) := updateScreen a5 w6 old' in
  let '(a8, w8) := restoreAndDelete a7 w7 in
  let w9 := emit w8 EventUpdateScreen in
  let '(_, w10) := setPort w9 oldPort in
  Ret (a8, set_throttleTrigger w10 true).

Definition kernelAnimate (fuel : nat) (a : GfxAnimate) (w : World)
    (listReference : reg_t) (cycle : bool) : result (GfxAnimate * World) :=
  let w1 := if negb (picNotValid w =? 0) then emit w DelayForPalVary else w in
  let old_picNotValid := toByte (picNotValid w1) in
  let w2 :=
    if getSciVersion E >=? SCI_VERSION_1_1 E then emit w1 PalVaryUpdate
    else w1 in
  if isNull listReference then
    let a1 := disposeLastCast a in
    Ret (a1, if negb (picNotValid w2 =? 0) then animateShowPic w2 else w2)
  else
    list <- lookupList w2 listReference ;;
    if cycle then
      '(continue, w3) <- invoke fuel w2 list ;;
      if negb continue then Ret (a, w3)
      else
        list' <- lookupList w3 listReference ;;
        animateFrame fuel a w3 list' old_picNotValid
    else animateFrame fuel a w2 list old_picNotValid.

(** The dirty-region condition in words: NoUpdate with ForceUpdate or
    ViewUpdated, or with Hidden but not RemoveView, or with RemoveView but not
    Hidden, or with AlwaysUpdate; or no NoUpdate with StopUpdate or
    AlwaysUpdate. *)
Definition invalidatesPicture (s : Z) : bool :=
  (has s (kSignalNoUpdate E)
   && (has s (kSignalForceUpdate E) || has s (kSignalViewUpdated E)
       || (has s (kSignalHidden E) && negb (has s (kSignalRemoveView E)))
       || (has s (kSignalRemoveView E) && negb (has s (kSignalHidden E)))
       || has s (kSignalAlwaysUpdate E)))
  || (negb (has s (kSignalNoUpdate E))
      && (has s (kSignalStopUpdate E) || has s (kSignalAlwaysUpdate E))).

(** The signal [fill] leaves in an entry. *)
Definition filledSignal (s : Z) : Z :=
  if has s (kSignalNoUpdate E) then clearBits s (kSignalStopUpdate E)
  else clearBits s (kSignalForceUpdate E).

Definition countInvalidating (l : list AnimateEntry) : nat :=
  length (filter (fun e => invalidatesPicture (signal e)) l).

(** The signal masks, in the order of their declaration. *)
Definition signalMasks : list Z :=
  [ kSignalStopUpdate E; kSignalViewUpdated E; kSignalNoUpdate E;
    kSignalHidden E; kSignalFixedPriority E; kSignalAlwaysUpdate E;
    kSignalForceUpdate E; kSignalRemoveView E; kSignalFrozen E;
    kSignalIgnoreActor E; kSignalDisposeMe E ].

(** What the properties below need of the masks: each is a non-empty set of
    bits of a [uint16], and no two share a bit. *)
Record FlagsOk : Prop := mkFlagsOk
  { flag16 : forall m, In m signalMasks -> mask16 m /\ m <> 0;
    flagsApart : forall i j, (i < j < 11)%nat ->
        disjoint (nth i signalMasks 0) (nth j signalMasks 0) }.

(** The four bits the always-update pass clears. *)
Definition updateClearedMask : Z :=
  Z.lor (Z.lor (Z.lor (kSignalStopUpdate E) (kSignalViewUpdated E))
               (kSignalNoUpdate E)) (kSignalForceUpdate E).


(** What the first loop of [update] does with a stale background: it is
    freed when the picture is not valid at level 1 and restored otherwise. *)
Definition staleCall (picNotValid : Z) (h : reg_t) : GfxCall :=
  if picNotValid =? 1 then BitsFree h else BitsRestore h.

(** The forward loop of [restoreAndDelete] as a sequence of writes. *)
Definition signalsWritten (l : list AnimateEntry) (w : World) : World :=
  fold_left (fun w' e => writeSelectorValue w' (object e) s_signal (signal e))
            l w.

(** Restoring one entry under the freshly read signal [s]: the background
    goes back and underBits become 0 when [s] has neither NoUpdate nor
    RemoveView. *)
Definition restoredWorld (w : World) (obj : reg_t) (s : Z) : World :=
  if negb (has s (kSignalNoUpdate E)) && negb (has s (kSignalRemoveView E))
  then writeSelectorValue
         (emit w (BitsRestore (readSelector w obj s_underBits)))
         obj s_underBits 0
  else w.

(** Disposing of one entry under the freshly read signal [s]. *)
Definition disposedWorld (w : World) (obj : reg_t) (s : Z) : World :=
  if has s (kSignalDisposeMe E) then invokeSelector E w obj s_delete_ else w.

(** The planes [reAnimate] saves. *)
Definition castMask : Z :=
  Z.lor (GFX_SCREEN_MASK_VISUAL E) (GFX_SCREEN_MASK_PRIORITY E).

(** The two calls [reAnimate] makes for one snapshot entry. *)
Definition saveDraw (e : AnimateEntry) (h : reg_t) : list GfxCall :=
  [ BitsSave (celRect e) castMask h;
    DrawCel (viewId e) (loopNo e) (celNo e) (celRect e) (priority e)
            (paletteNo e) (scaleX e) (scaleY e) None ].

(** The handles the drawing surface hands out while the snapshot is saved,
    given the calls made before. *)
Fixpoint savedHandles (cs : list GfxCall) (l : list AnimateEntry)
  : list reg_t :=
  match l with
  | [] => []
  | e :: t =>
      let h := newBits E cs (celRect e) castMask in
      h :: savedHandles (cs ++ saveDraw e h) t
  end.

Fixpoint saveDrawCalls (l : list AnimateEntry) (hs : list reg_t)
  : list GfxCall :=
  match l, hs with
  | e :: t, h :: hs' => saveDraw e h ++ saveDrawCalls t hs'
  | _, _ => []
  end.

Fixpoint withHandles (l : list AnimateEntry) (hs : list reg_t)
  : list AnimateEntry :=
  match l, hs with
  | e :: t, h :: hs' => set_castHandle e h :: withHandles t hs'
  | _, _ => []
  end.



(** What [kernelAnimate] does before it looks at its list: the palette
    delay when the picture is not valid and, from SCI1.1 on, the palette
    update. *)
Definition animatePrelude (w : World) : World :=
  let w1 := if negb (picNotValid w =? 0) then emit w DelayForPalVary else w in
  if getSciVersion E >=? SCI_VERSION_1_1 E then emit w1 PalVaryUpdate else w1.

(** ** Static compositing: kAddToPic *)

(** The body of the loop of [addToPicDrawCels].  [drawCel] is called here
    with the view itself; the log records the view by its id. *)
Definition addToPicDrawEntry (w : World) (e : AnimateEntry)
  : result (AnimateEntry * World) :=
  let view := getView E (viewId e) in
  let e1 :=
    if priority e =? -1
    then set_priority e (toInt16 (kernelCoordinateToPriority E (y e)))
    else e in
  let e2 := if negb (isScaleable view) then set_scale e1 0 128 128 else e1 in
  '(e3, w3) <-
    (if has (scaleSignal e2) (kScaleSignalDoScaling E) then
       '(e', w') <-
         (if has (scaleSignal e2) (kScaleSignalGlobalScaling E)
          then applyGlobalScaling view w e2 else Ret (e2, w)) ;;
       let e'' :=
         set_celRect e'
           (getCelScaledRect view (loopNo e') (celNo e') (x e') (y e') (z e')
              (scaleX e') (scaleY e')) in
       Ret (e'', setNSRect w' (object e'') (celRect e''))
     else
       Ret (set_celRect e2
              (getCelRect view (loopNo e2) (celNo e2) (x e2) (y e2) (z e2)),
            w)) ;;
  let w4 := drawEntry w3 e3 in
  if negb (has (signal e3) (kSignalIgnoreActor E)) then
    let e4 := set_celRect e3 (priorityStrip e3) in
    Ret (e4, emit w4 (FillRect (celRect e4) (GFX_SCREEN_MASK_CONTROL E)
                        0 0 15))
  else Ret (e3, w4).

Fixpoint addToPicLoop (l : list AnimateEntry) (w : World)
  : result (list AnimateEntry * World) :=
  match l with
  | [] => Ret ([], w)
  | e :: rest =>
      '(e', w1) <- addToPicDrawEntry w e ;;
      '(rest', w2) <- addToPicLoop rest w1 ;;
      Ret (e' :: rest', w2)
  end.

Definition addToPicDrawCels (a : GfxAnimate) (w : World)
  : result (GfxAnimate * World) :=
  '(l, w') <- addToPicLoop (a_list a) w ;;
  Ret (mkAnimate l (a_lastCastData a), w').





(** An entry [drawCels] draws: none of NoUpdate, Hidden, AlwaysUpdate. *)
Definition drawable (e : AnimateEntry) : bool :=
  negb (has (signal e) (kSignalNoUpdate E))
  && negb (has (signal e) (kSignalHidden E))
  && negb (has (signal e) (kSignalAlwaysUpdate E)).

(** The entry as [drawCels] leaves it once drawn. *)
Definition drawnEntry (e : AnimateEntry) : AnimateEntry :=
  if has (signal e) (kSignalRemoveView E)
  then set_signal (set_showBitsFlag e true)
                  (clearBits (signal e) (kSignalRemoveView E))
  else set_showBitsFlag e true.

(** Whether [updateScreen] deals with an entry: it was drawn this frame, or
    it has neither RemoveView nor NoUpdate. *)
Definition reconciled (e : AnimateEntry) : bool :=
  showBitsFlag e
  || (negb (has (signal e) (kSignalRemoveView E))
      && negb (has (signal e) (kSignalNoUpdate E))).

(** An entry whose background [restoreAndDelete] puts back. *)
Definition restorable (e : AnimateEntry) : bool :=
  negb (has (signal e) (kSignalNoUpdate E))
  && negb (has (signal e) (kSignalRemoveView E)).

(** The behaviour walk over scripts that leave the list alone: every object
    not frozen at its turn has its [doit] run. *)
Definition doitAll (objs : list reg_t) (w : World) : World :=
  fold_left
    (fun w' o =>
       if has (readSelectorValue w' o s_signal) (kSignalFrozen E) then w'
       else invokeSelector E w' o s_doit)
    objs w.


(** * Properties *)

(** ** Machine integers and selectors *)

Lemma toInt16_small (v : Z) : -32768 <= v <= 32767 -> toInt16 v = v.
Proof.
  intros H. unfold toInt16. rewrite Z.mod_small; lia.
Qed.

Lemma toUint16_small (v : Z) : 0 <= v < 65536 -> toUint16 v = v.
Proof.
  intros H. unfold toUint16. now rewrite Z.mod_small.
Qed.


Lemma Selector_eqb_refl (s : Selector) : Selector_eqb s s = true.
Proof. now destruct s. Qed.

Lemma Selector_eqb_eq (a b : Selector) : Selector_eqb a b = true <-> a = b.
Proof.
  split; [| intros ->; apply Selector_eqb_refl].
  destruct a, b; simpl; congruence.
Qed.

Lemma selectors_writeSelector (w : World) (o o' : reg_t) (s s' : Selector)
    (v : reg_t) :
  selectors (writeSelector w o s v) o' s'
  = if (o' =? o) && Selector_eqb s' s then v else selectors w o' s'.
Proof. reflexivity. Qed.


Lemma readSelector_write_other (w : World) (o o' : reg_t) (s s' : Selector)
    (v : reg_t) :
  s' <> s -> readSelector (writeSelector w o s v) o' s' = readSelector w o' s'.
Proof.
  intros Hs. unfold readSelector. rewrite selectors_writeSelector.
  destruct (Selector_eqb s' s) eqn:Hq.
  - apply Selector_eqb_eq in Hq. contradiction.
  - now rewrite andb_false_r.
Qed.

Lemma readSelectorValue_write_same (w : World) (o : reg_t) (s : Selector) (v : Z) :
  readSelectorValue (writeSelectorValue w o s v) o s = toUint16 v.
Proof.
  unfold readSelectorValue, writeSelectorValue.
  rewrite selectors_writeSelector, Z.eqb_refl, Selector_eqb_refl. simpl.
  unfold toUint16. now rewrite Z.mod_mod.
Qed.

(** ** Loop and cel clamping *)

(** C4: [adjustInvalidCels] resolves the loop against the view's loop count
    and then the cel against the cel count of the resolved loop: an index at
    or above the count becomes 0 and that 0 is written back to the object; a
    negative index becomes count - 1 and nothing is written; an index in
    range is kept.  Nothing else of the entry or of the object changes. *)
Theorem adjustInvalidCels_clamps (view : GfxView) (w : World) (e : AnimateEntry)
    (Hloops : 0 <= getLoopCount view <= 32767)
    (Hcels : forall l, 0 <= getCelCount view l <= 32767) :
  let loopCount := getLoopCount view in
  let e' := fst (adjustInvalidCels view w e) in
  let w' := snd (adjustInvalidCels view w e) in
  let celCount := getCelCount view (loopNo e') in
  let wLoop :=
    if loopNo e >=? loopCount then writeSelectorValue w (object e) s_loop 0
    else w in
  (loopNo e >= loopCount -> loopNo e' = 0
     /\ readSelectorValue w' (object e) s_loop = 0) /\
  (loopNo e < 0 -> loopNo e' = loopCount - 1
     /\ readSelector w' (object e) s_loop = readSelector w (object e) s_loop) /\
  (0 <= loopNo e < loopCount -> loopNo e' = loopNo e
     /\ readSelector w' (object e) s_loop = readSelector w (object e) s_loop) /\
  (celNo e >= celCount -> celNo e' = 0
     /\ readSelectorValue w' (object e) s_cel = 0) /\
  (celNo e < 0 -> celNo e' = celCount - 1
     /\ readSelector w' (object e) s_cel = readSelector w (object e) s_cel) /\
  (0 <= celNo e < celCount -> celNo e' = celNo e
     /\ readSelector w' (object e) s_cel = readSelector w (object e) s_cel) /\
  w' = (if celNo e >=? celCount then writeSelectorValue wLoop (object e) s_cel 0
        else wLoop) /\
  e' = set_celNo (set_loopNo e (loopNo e')) (celNo e').
Proof.
  intros loopCount e' w' celCount wLoop.
  subst loopCount e' w' celCount wLoop.
  unfold adjustInvalidCels.
  rewrite (toInt16_small (getLoopCount view)) by lia.
  pose proof (Hcels 0) as Hc0.
  pose proof (Hcels (getLoopCount view - 1)) as Hc1.
  pose proof (Hcels (loopNo e)) as Hc2.
  rewrite (toInt16_small (getLoopCount view - 1)) by lia.
  destruct (loopNo e >=? getLoopCount view) eqn:Hge;
    [| destruct (loopNo e <? 0) eqn:Hlt];
    cbn [set_loopNo loopNo celNo object];
    rewrite (toInt16_small (getCelCount view _)) by lia;
    (match goal with
     | |- context [celNo e >=? ?c] =>
         destruct (celNo e >=? c) eqn:Hcge;
         [| destruct (celNo e <? 0) eqn:Hclt]
     end);
    cbn [fst snd set_celNo set_loopNo loopNo celNo object];
    rewrite ?Hcge; rewrite ?toInt16_small by lia;
    repeat split; intros; try lia; try reflexivity;
    try (destruct e; reflexivity);
    try (rewrite readSelectorValue_write_same; reflexivity);
    try (unfold writeSelectorValue;
         rewrite ?readSelector_write_other by discriminate; reflexivity);
    try (unfold readSelectorValue, writeSelectorValue;
         rewrite !selectors_writeSelector; simpl Selector_eqb;
         rewrite ?andb_false_r, ?Z.eqb_refl; reflexivity).
Qed.

(** ** Perspective scaling *)



(** ** Signal words *)

Lemma testbit_toUint16 (a n : Z) :
  0 <= n -> Z.testbit (toUint16 a) n = (n <? 16) && Z.testbit a n.
Proof.
  intros Hn. unfold toUint16. change 65536 with (2 ^ 16).
  destruct (n <? 16) eqn:Hlt.
  - apply Z.ltb_lt in Hlt. now rewrite Z.mod_pow2_bits_low.
  - apply Z.ltb_ge in Hlt. now rewrite Z.mod_pow2_bits_high.
Qed.

Lemma testbit_mask16 (m n : Z) :
  mask16 m -> 0 <= n -> Z.testbit m n = (n <? 16) && Z.testbit m n.
Proof.
  intros Hm Hn. rewrite <- (toUint16_small m Hm) at 1.
  now apply testbit_toUint16.
Qed.

Lemma testbit_disjoint (m m' n : Z) :
  disjoint m m' -> Z.testbit m n && Z.testbit m' n = false.
Proof.
  intros H. rewrite <- Z.land_spec, H. apply Z.bits_0.
Qed.

Lemma land_clearBits_same (s m : Z) : Z.land (clearBits s m) m = 0.
Proof.
  apply Z.bits_inj'. intros n Hn. unfold clearBits.
  rewrite Z.land_spec, testbit_toUint16, Z.land_spec, Z.lnot_spec, Z.bits_0
    by assumption.
  destruct (Z.testbit m n), (Z.testbit s n), (n <? 16); reflexivity.
Qed.

Lemma land_clearBits_disjoint (s m m' : Z) :
  disjoint m m' -> mask16 m' -> Z.land (clearBits s m) m' = Z.land s m'.
Proof.
  intros Hd Hm. apply Z.bits_inj'. intros n Hn. unfold clearBits.
  rewrite !Z.land_spec, testbit_toUint16, Z.land_spec, Z.lnot_spec
    by assumption.
  pose proof (testbit_disjoint m m' n Hd) as Hb.
  rewrite (testbit_mask16 m' n Hm Hn) in *.
  destruct (Z.testbit m n), (Z.testbit m' n), (Z.testbit s n), (n <? 16);
    simpl in *; congruence.
Qed.

Lemma land_clearBits_sub (s m m' : Z) :
  Z.land s m' = 0 -> Z.land (clearBits s m) m' = 0.
Proof.
  intros H. apply Z.bits_inj'. intros n Hn. unfold clearBits.
  rewrite Z.land_spec, testbit_toUint16, Z.land_spec, Z.lnot_spec, Z.bits_0
    by assumption.
  assert (Hb : Z.testbit s n && Z.testbit m' n = false)
    by (rewrite <- Z.land_spec, H; apply Z.bits_0).
  destruct (Z.testbit m n), (Z.testbit m' n), (Z.testbit s n), (n <? 16);
    simpl in *; congruence.
Qed.

Lemma land_setBits (s m m' : Z) :
  mask16 m' ->
  Z.land (setBits s m) m' = Z.lor (Z.land s m') (Z.land m m').
Proof.
  intros Hm. apply Z.bits_inj'. intros n Hn. unfold setBits.
  rewrite Z.lor_spec, !Z.land_spec, testbit_toUint16, Z.lor_spec by assumption.
  rewrite (testbit_mask16 m' n Hm Hn).
  destruct (Z.testbit m n), (Z.testbit m' n), (Z.testbit s n), (n <? 16);
    reflexivity.
Qed.

Lemma clearBits_lor (s a b : Z) :
  clearBits s (Z.lor a b) = clearBits (clearBits s a) b.
Proof.
  apply Z.bits_inj'. intros n Hn. unfold clearBits.
  rewrite !testbit_toUint16, !Z.land_spec, !Z.lnot_spec, testbit_toUint16,
    Z.land_spec, Z.lnot_spec, Z.lor_spec by assumption.
  destruct (Z.testbit a n), (Z.testbit b n), (Z.testbit s n), (n <? 16);
    reflexivity.
Qed.

Lemma has_false_iff (s m : Z) : has s m = false <-> Z.land s m = 0.
Proof.
  unfold has. rewrite negb_false_iff. apply Z.eqb_eq.
Qed.

Lemma has_clearBits_same (s m : Z) : has (clearBits s m) m = false.
Proof. apply has_false_iff, land_clearBits_same. Qed.

Lemma has_clearBits_other (s m m' : Z) :
  disjoint m m' -> mask16 m' -> has (clearBits s m) m' = has s m'.
Proof.
  intros Hd Hm. unfold has. now rewrite land_clearBits_disjoint.
Qed.

Lemma has_clearBits_false (s m m' : Z) :
  has s m' = false -> has (clearBits s m) m' = false.
Proof.
  rewrite !has_false_iff. apply land_clearBits_sub.
Qed.


Lemma has_setBits_other (s m m' : Z) :
  disjoint m m' -> mask16 m' -> has (setBits s m) m' = has s m'.
Proof.
  intros Hd Hm. unfold has. rewrite land_setBits by assumption.
  rewrite Hd. now rewrite Z.lor_0_r.
Qed.

Lemma has_lor (s a b : Z) : has s (Z.lor a b) = has s a || has s b.
Proof.
  unfold has. rewrite Z.land_lor_distr_r.
  destruct (Z.land s a =? 0) eqn:Ha, (Z.land s b =? 0) eqn:Hb; simpl;
    rewrite ?Z.eqb_eq, ?Z.eqb_neq in *;
    try (apply negb_true_iff, Z.eqb_neq; intros H;
         apply Z.lor_eq_0_iff in H; tauto).
  apply negb_false_iff, Z.eqb_eq. apply Z.lor_eq_0_iff. tauto.
Qed.

Lemma disjoint_sym (m m' : Z) : disjoint m m' -> disjoint m' m.
Proof. unfold disjoint. now rewrite Z.land_comm. Qed.

(** ** The geometry pass and the invalidation counter *)

Lemma fillInvalidates_words (s : Z) : fillInvalidates s = invalidatesPicture s.
Proof.
  unfold fillInvalidates, invalidatesPicture. rewrite has_lor.
  destruct (has s (kSignalNoUpdate E)), (has s (kSignalForceUpdate E)),
    (has s (kSignalViewUpdated E)), (has s (kSignalHidden E)),
    (has s (kSignalRemoveView E)), (has s (kSignalAlwaysUpdate E)),
    (has s (kSignalStopUpdate E)); reflexivity.
Qed.

Lemma adjustInvalidCels_signal (view : GfxView) (w : World) (e : AnimateEntry) :
  signal (fst (adjustInvalidCels view w e)) = signal e.
Proof.
  unfold adjustInvalidCels.
  destruct (loopNo e >=? _); [| destruct (loopNo e <? 0)];
    match goal with
    | |- context [celNo ?x >=? ?c] =>
        destruct (celNo x >=? c); [| destruct (celNo x <? 0)]
    end; reflexivity.
Qed.

Lemma processViewScaling_signal (view : GfxView) (w w' : World)
    (e e' : AnimateEntry) :
  processViewScaling view w e = Ret (e', w') -> signal e' = signal e.
Proof.
  intros H.
  apply (f_equal (fun r => match r with
                           | Ret (x, _) => signal x
                           | _ => signal e
                           end)) in H.
  cbv beta iota in H. rewrite <- H. clear H.
  unfold processViewScaling, applyGlobalScaling.
  destruct (negb (isScaleable view)); [reflexivity |].
  destruct (_ && _); [| reflexivity].
  destruct (_ || _); reflexivity.
Qed.

Lemma setNsRect_signal (view : GfxView) (w : World) (e : AnimateEntry) :
  signal (fst (setNsRect view w e)) = signal e.
Proof.
  unfold setNsRect.
  destruct (has (scaleSignal e) _); [reflexivity |].
  destruct (_ && _); reflexivity.
Qed.

Lemma fillEntry_inv (w w' : World) (c c' : Z) (e e' : AnimateEntry) :
  fillEntry w c e = Ret (e', w', c') ->
  signal e' = filledSignal (signal e)
  /\ c' = (if invalidatesPicture (signal e) then toByte (c + 1) else c).
Proof.
  unfold fillEntry.
  pose proof (adjustInvalidCels_signal (getView E (viewId e)) w e) as H1.
  destruct (adjustInvalidCels (getView E (viewId e)) w e) as [e1 w1].
  cbn [fst] in H1.
  destruct (processViewScaling (getView E (viewId e)) w1 e1)
    as [[e2 w2] | |] eqn:H2; cbn [bind]; try discriminate.
  apply processViewScaling_signal in H2.
  pose proof (setNsRect_signal (getView E (viewId e)) w2 e2) as H3.
  destruct (setNsRect (getView E (viewId e)) w2 e2) as [e3 w3].
  cbn [fst] in H3.
  assert (Hs : signal e3 = signal e) by congruence.
  destruct (negb (has (signal e3) (kSignalFixedPriority E)));
    intros H; injection H as <- _ <-;
    cbn [signal set_priority]; rewrite fillInvalidates_words, Hs;
    unfold filledSignal;
    (split; [destruct (has (signal e) (kSignalNoUpdate E)); reflexivity
            | reflexivity]).
Qed.

Lemma toByte_succ (c : Z) (n : nat) :
  toByte (toByte (c + 1) + Z.of_nat n) = toByte (c + Z.of_nat (S n)).
Proof.
  unfold toByte. rewrite Nat2Z.inj_succ.
  rewrite Zplus_mod_idemp_l. f_equal. lia.
Qed.

(** C9: in [fill] the picture-invalidation counter (a byte) goes up by one
    for an entry exactly when its signal has NoUpdate with ForceUpdate or
    ViewUpdated, Hidden without RemoveView, RemoveView without Hidden, or
    AlwaysUpdate, or has no NoUpdate but StopUpdate or AlwaysUpdate; and
    [fill] clears StopUpdate on every NoUpdate entry and ForceUpdate on every
    other entry. *)
Theorem fill_counts_invalidations (a a' : GfxAnimate) (w w' : World) (c c' : Z)
    (Hbyte : 0 <= c < 256)
    (Hrun : fill a w c = Ret (a', w', c')) :
  c' = toByte (c + Z.of_nat (countInvalidating (a_list a)))
  /\ Forall2
       (fun e e' =>
          signal e' = filledSignal (signal e)
          /\ (has (signal e) (kSignalNoUpdate E) = true ->
              has (signal e') (kSignalStopUpdate E) = false)
          /\ (has (signal e) (kSignalNoUpdate E) = false ->
              has (signal e') (kSignalForceUpdate E) = false))
       (a_list a) (a_list a')
  /\ (forall w0 w1 c0 c1 e e',
         fillEntry w0 c0 e = Ret (e', w1, c1) ->
         0 <= c0 < 256 ->
         (c1 = toByte (c0 + 1) /\ c1 <> c0 <->
          invalidatesPicture (signal e) = true)
         /\ (c1 = c0 <-> invalidatesPicture (signal e) = false)).
Proof.
  unfold fill in Hrun.
  destruct (fillLoop (a_list a) w c) as [[[l wl] cl] | |] eqn:Hloop;
    cbn [bind] in Hrun; try discriminate.
  injection Hrun as <- _ <-. cbn [a_list].
  assert (Hstep : forall w0 w1 c0 c1 e e',
             fillEntry w0 c0 e = Ret (e', w1, c1) -> 0 <= c0 < 256 ->
             (c1 = toByte (c0 + 1) /\ c1 <> c0 <->
              invalidatesPicture (signal e) = true)
             /\ (c1 = c0 <-> invalidatesPicture (signal e) = false)).
  { intros w0 w1 c0 c1 e e' He Hc0. apply fillEntry_inv in He.
    destruct He as [_ ->].
    assert (toByte (c0 + 1) <> c0).
    { unfold toByte. intros Heq.
      destruct (Z.eq_dec c0 255) as [-> | Hne]; [discriminate |].
      rewrite Z.mod_small in Heq; lia. }
    destruct (invalidatesPicture (signal e)); intuition congruence. }
  split; [| split; [| exact Hstep]].
  - clear Hstep. revert w c Hbyte l wl cl Hloop.
    unfold countInvalidating.
    induction (a_list a) as [| e rest IH]; intros w c Hbyte l wl cl Hloop.
    + cbn in Hloop. injection Hloop as _ _ <-. cbn.
      rewrite Z.add_0_r. unfold toByte. now rewrite Z.mod_small.
    + cbn [fillLoop] in Hloop.
      destruct (fillEntry w c e) as [[[e1 w1] c1] | |] eqn:He;
        cbn [bind] in Hloop; try discriminate.
      destruct (fillLoop rest w1 c1) as [[[r2 w2] c2] | |] eqn:Hr;
        cbn [bind] in Hloop; try discriminate.
      injection Hloop as _ _ <-.
      apply fillEntry_inv in He. destruct He as [_ Hc1].
      assert (Hb1 : 0 <= c1 < 256).
      { subst c1. destruct (invalidatesPicture (signal e)); [| assumption].
        unfold toByte. apply Z.mod_pos_bound. lia. }
      rewrite (IH w1 c1 Hb1 r2 w2 c2 Hr). cbn [filter].
      subst c1. destruct (invalidatesPicture (signal e)); [| reflexivity].
      cbn [length]. apply toByte_succ.
  - clear Hstep Hbyte. revert w c l wl cl Hloop.
    induction (a_list a) as [| e rest IH]; intros w c l wl cl Hloop.
    + cbn in Hloop. injection Hloop as <- _ _. constructor.
    + cbn [fillLoop] in Hloop.
      destruct (fillEntry w c e) as [[[e1 w1] c1] | |] eqn:He;
        cbn [bind] in Hloop; try discriminate.
      destruct (fillLoop rest w1 c1) as [[[r2 w2] c2] | |] eqn:Hr;
        cbn [bind] in Hloop; try discriminate.
      injection Hloop as <- _ _.
      constructor; [| eapply IH; eassumption].
      apply fillEntry_inv in He. destruct He as [Hs _].
      split; [assumption |]. rewrite Hs. unfold filledSignal.
      split; intros Hn; rewrite Hn; apply has_clearBits_same.
Qed.

(** ** Loops over the working list *)

Lemma forEach_middle (step : World -> AnimateEntry -> AnimateEntry * World)
    (before after : list AnimateEntry) (e : AnimateEntry) (w : World) :
  forEach step (before ++ e :: after) w
  = (let '(b', w1) := forEach step before w in
     let '(e', w2) := step w1 e in
     let '(a', w3) := forEach step after w2 in
     (b' ++ e' :: a', w3)).
Proof.
  revert w. induction before as [| h t IH]; intros w.
  - cbn. destruct (step w e) as [e' w2].
    now destruct (forEach step after w2).
  - cbn [forEach app]. destruct (step w h) as [h' w1].
    rewrite IH. destruct (forEach step t w1) as [t' w2].
    destruct (step w2 e) as [e' w3].
    now destruct (forEach step after w3).
Qed.

Lemma forEach_length (step : World -> AnimateEntry -> AnimateEntry * World)
    (l : list AnimateEntry) (w : World) :
  length (fst (forEach step l w)) = length l.
Proof.
  revert w. induction l as [| h t IH]; intros w; [reflexivity |].
  cbn [forEach]. destruct (step w h) as [h' w1].
  specialize (IH w1). destruct (forEach step t w1) as [t' w2].
  cbn in *. now rewrite IH.
Qed.

Lemma forEachRev_length (step : World -> AnimateEntry -> AnimateEntry * World)
    (l : list AnimateEntry) (w : World) :
  length (fst (forEachRev step l w)) = length l.
Proof.
  unfold forEachRev.
  pose proof (forEach_length step (rev l) w) as H.
  destruct (forEach step (rev l) w) as [l' w']. cbn in *.
  now rewrite length_rev, H, length_rev.
Qed.

(** The reverse loop reaches an entry after everything behind it and before
    everything in front of it. *)
Lemma forEachRev_middle (step : World -> AnimateEntry -> AnimateEntry * World)
    (before after : list AnimateEntry) (e : AnimateEntry) (w : World) :
  forEachRev step (before ++ e :: after) w
  = (let '(a', w1) := forEachRev step after w in
     let '(e', w2) := step w1 e in
     let '(b', w3) := forEachRev step before w2 in
     (b' ++ e' :: a', w3)).
Proof.
  unfold forEachRev. rewrite rev_app_distr. cbn [rev].
  rewrite <- app_assoc. cbn [app]. rewrite forEach_middle.
  destruct (forEach step (rev after) w) as [a' w1].
  destruct (step w1 e) as [e' w2].
  destruct (forEach step (rev before) w2) as [b' w3].
  rewrite rev_app_distr. cbn [rev]. now rewrite <- app_assoc.
Qed.

Lemma forEach_logsOnly (step : World -> AnimateEntry -> AnimateEntry * World)
    (Hstep : logsOnly step) (l : list AnimateEntry) (w : World) :
  exists post, calls (snd (forEach step l w)) = calls w ++ post.
Proof.
  revert w. induction l as [| h t IH]; intros w.
  - exists []. cbn. now rewrite app_nil_r.
  - cbn [forEach]. destruct (Hstep w h) as [p1 H1].
    destruct (step w h) as [h' w1]. cbn [snd] in H1.
    destruct (IH w1) as [p2 H2].
    destruct (forEach step t w1) as [t' w2]. cbn [snd] in *.
    exists (p1 ++ p2). now rewrite H2, H1, app_assoc.
Qed.

Lemma forEachRev_logsOnly (step : World -> AnimateEntry -> AnimateEntry * World)
    (Hstep : logsOnly step) (l : list AnimateEntry) (w : World) :
  exists post, calls (snd (forEachRev step l w)) = calls w ++ post.
Proof.
  unfold forEachRev.
  destruct (forEach_logsOnly step Hstep (rev l) w) as [p H].
  destruct (forEach step (rev l) w) as [l' w']. now exists p.
Qed.

Lemma calls_writeSelectorValue (w : World) (o : reg_t) (s : Selector) (v : Z) :
  calls (writeSelectorValue w o s v) = calls w.
Proof. reflexivity. Qed.

Lemma calls_emit (w : World) (c : GfxCall) : calls (emit w c) = calls w ++ [c].
Proof. reflexivity. Qed.

Lemma calls_markPriority (w : World) (e : AnimateEntry) :
  calls (markPriority w e)
  = calls w ++ (if has (signal e) (kSignalIgnoreActor E) then []
                else [FillRect (priorityStrip e) (GFX_SCREEN_MASK_CONTROL E)
                        0 0 15]).
Proof.
  unfold markPriority. destruct (has (signal e) (kSignalIgnoreActor E)); cbn.
  - now rewrite app_nil_r.
  - reflexivity.
Qed.

Lemma updateRemove_logsOnly : logsOnly updateRemove.
Proof.
  intros w e. unfold updateRemove.
  destruct (has (signal e) (kSignalNoUpdate E)).
  - destruct (negb (has (signal e) (kSignalRemoveView E))).
    + destruct (negb (picNotValid w =? 1)); cbn; eexists; reflexivity.
    + exists []. cbn. now rewrite app_nil_r.
  - destruct (has (signal e) (kSignalStopUpdate E));
      exists []; cbn; now rewrite app_nil_r.
Qed.


Lemma updateSave_logsOnly : logsOnly updateSave.
Proof.
  intros w e. unfold updateSave.
  destruct (has (signal e) (kSignalNoUpdate E)).
  - destruct (has (signal e) (kSignalHidden E)).
    + exists []. cbn. now rewrite app_nil_r.
    + cbn. eexists; reflexivity.
  - exists []. cbn. now rewrite app_nil_r.
Qed.

Lemma updateDraw_logsOnly : logsOnly updateDraw.
Proof.
  intros w e. unfold updateDraw.
  destruct (_ && _).
  - cbn [snd]. rewrite calls_markPriority. unfold drawEntry.
    rewrite calls_emit, <- app_assoc. eexists; reflexivity.
  - exists []. cbn. now rewrite app_nil_r.
Qed.

(** ** Signal passes *)


Lemma updateAlways_draws (w : World) (e : AnimateEntry) :
  has (signal e) (kSignalAlwaysUpdate E) = true ->
  updateAlways w e
  = (set_signal (set_showBitsFlag e true)
       (clearBits (signal e) updateClearedMask),
     markPriority (drawEntry w e)
       (set_signal (set_showBitsFlag e true)
          (clearBits (signal e) updateClearedMask))).
Proof.
  intros Ha. unfold updateAlways. now rewrite Ha.
Qed.

Lemma updateSave_skips (w : World) (e : AnimateEntry) :
  has (signal e) (kSignalNoUpdate E) = false -> updateSave w e = (e, w).
Proof.
  intros Hn. unfold updateSave. now rewrite Hn.
Qed.

Lemma updateDraw_skips (w : World) (e : AnimateEntry) :
  has (signal e) (kSignalNoUpdate E) = false -> updateDraw w e = (e, w).
Proof.
  intros Hn. unfold updateDraw. now rewrite Hn.
Qed.

Lemma has_cleared_always (s m : Z) :
  mask16 m ->
  disjoint (kSignalStopUpdate E) m -> disjoint (kSignalViewUpdated E) m ->
  disjoint (kSignalNoUpdate E) m -> disjoint (kSignalForceUpdate E) m ->
  has (clearBits s updateClearedMask) m = has s m.
Proof.
  intros Hm H1 H2 H3 H4. unfold updateClearedMask.
  rewrite !clearBits_lor. now rewrite !has_clearBits_other.
Qed.

Lemma cleared_always (s : Z) :
  has (clearBits s updateClearedMask) (kSignalStopUpdate E) = false
  /\ has (clearBits s updateClearedMask) (kSignalViewUpdated E) = false
  /\ has (clearBits s updateClearedMask) (kSignalNoUpdate E) = false
  /\ has (clearBits s updateClearedMask) (kSignalForceUpdate E) = false.
Proof.
  unfold updateClearedMask. rewrite !clearBits_lor.
  repeat split;
    repeat first [apply has_clearBits_same | apply has_clearBits_false].
Qed.


Lemma forEach_invariant (P : World -> Prop)
    (step : World -> AnimateEntry -> AnimateEntry * World)
    (Hstep : forall w e, P w -> P (snd (step w e)))
    (l : list AnimateEntry) (w : World) :
  P w -> P (snd (forEach step l w)).
Proof.
  revert w. induction l as [| h t IH]; intros w Hw; [exact Hw |].
  cbn [forEach]. specialize (Hstep w h Hw).
  destruct (step w h) as [h' w1]. specialize (IH w1 Hstep).
  now destruct (forEach step t w1).
Qed.

Lemma forEachRev_invariant (P : World -> Prop)
    (step : World -> AnimateEntry -> AnimateEntry * World)
    (Hstep : forall w e, P w -> P (snd (step w e)))
    (l : list AnimateEntry) (w : World) :
  P w -> P (snd (forEachRev step l w)).
Proof.
  intros Hw. unfold forEachRev.
  pose proof (forEach_invariant P step Hstep (rev l) w Hw) as H.
  now destruct (forEach step (rev l) w).
Qed.

Lemma updateRemove_picNotValid (w : World) (e : AnimateEntry) :
  picNotValid (snd (updateRemove w e)) = picNotValid w.
Proof.
  unfold updateRemove.
  destruct (has (signal e) (kSignalNoUpdate E)).
  - destruct (negb (has (signal e) (kSignalRemoveView E))); [| reflexivity].
    destruct (negb (picNotValid w =? 1)); reflexivity.
  - destruct (has (signal e) (kSignalStopUpdate E)); reflexivity.
Qed.

Lemma updateRemove_underBits_zero (o : reg_t) (w : World) (e : AnimateEntry) :
  readSelector w o s_underBits = 0 ->
  readSelector (snd (updateRemove w e)) o s_underBits = 0.
Proof.
  intros H0. unfold updateRemove.
  destruct (has (signal e) (kSignalNoUpdate E)).
  - destruct (negb (has (signal e) (kSignalRemoveView E))); [| exact H0].
    destruct (negb (picNotValid w =? 1)); cbn [snd];
      unfold readSelector, writeSelectorValue;
      rewrite selectors_writeSelector;
      destruct ((o =? object e) && Selector_eqb s_underBits s_underBits);
      try reflexivity; exact H0.
  - destruct (has (signal e) (kSignalStopUpdate E)); exact H0.
Qed.

(** C3 (as amended): in the first loop of [update], which walks the list
    from its end, an entry with NoUpdate set and RemoveView clear has the
    background its object holds restored to the screen, unless the picture
    is not valid at level 1, in which case that background is freed; either
    way the object's underBits are 0 afterwards.  Every NoUpdate entry has
    ForceUpdate cleared, and when ViewUpdated was set both ViewUpdated and
    NoUpdate are cleared. *)
Theorem update_removes_stale (Hflags : FlagsOk) (w : World)
    (before after : list AnimateEntry) (e : AnimateEntry)
    (Hno : has (signal e) (kSignalNoUpdate E) = true) :
  exists b1 e1 a1 w1 wAt,
    forEachRev updateRemove (before ++ e :: after) w = (b1 ++ e1 :: a1, w1)
    /\ length b1 = length before
    /\ forEachRev updateRemove after w = (a1, wAt)
    /\ has (signal e1) (kSignalForceUpdate E) = false
    /\ (has (signal e) (kSignalViewUpdated E) = true ->
        has (signal e1) (kSignalViewUpdated E) = false
        /\ has (signal e1) (kSignalNoUpdate E) = false)
    /\ (has (signal e) (kSignalViewUpdated E) = false ->
        has (signal e1) (kSignalNoUpdate E) = true)
    /\ (has (signal e) (kSignalRemoveView E) = false ->
        (exists post,
            calls w1
            = calls wAt
              ++ [staleCall (picNotValid w)
                    (readSelector wAt (object e) s_underBits)] ++ post)
        /\ readSelector w1 (object e) s_underBits = 0
        /\ (picNotValid w <> 1 -> showBitsFlag e1 = true)).
Proof.
  pose proof (flagsApart Hflags 1 6 ltac:(lia)) as HVF.
  pose proof (flagsApart Hflags 2 6 ltac:(lia)) as HNF.
  cbn in HVF, HNF. apply disjoint_sym in HVF. apply disjoint_sym in HNF.
  destruct (flag16 Hflags (kSignalViewUpdated E) ltac:(cbn; tauto)) as [HV16 _].
  destruct (flag16 Hflags (kSignalNoUpdate E) ltac:(cbn; tauto)) as [HN16 _].
  rewrite forEachRev_middle.
  pose proof (forEachRev_invariant
                (fun w' => picNotValid w' = picNotValid w) updateRemove
                (fun w' e' H => eq_trans (updateRemove_picNotValid w' e') H)
                after w eq_refl) as Hpic.
  destruct (forEachRev updateRemove after w) as [a1 wAt]. cbn [snd] in Hpic.
  destruct (updateRemove wAt e) as [e1 wE] eqn:Hstep.
  pose proof (forEachRev_length updateRemove before wE) as Hlen.
  pose proof (forEachRev_logsOnly updateRemove updateRemove_logsOnly before wE)
    as [post Hpost].
  pose proof (forEachRev_invariant
                (fun w' => readSelector w' (object e) s_underBits = 0)
                updateRemove (updateRemove_underBits_zero (object e))
                before wE) as Hzero.
  destruct (forEachRev updateRemove before wE) as [b1 w1].
  cbn [fst snd] in *.
  exists b1, e1, a1, w1, wAt.
  unfold updateRemove in Hstep. rewrite Hno in Hstep.
  set (s1 := fun s => clearBits s (kSignalForceUpdate E)) in *.
  assert (Hsig : signal e1
                 = if has (s1 (signal e)) (kSignalViewUpdated E)
                   then clearBits (s1 (signal e))
                          (Z.lor (kSignalViewUpdated E) (kSignalNoUpdate E))
                   else s1 (signal e)).
  { destruct (negb (has (signal e) (kSignalRemoveView E)));
      [destruct (negb (picNotValid wAt =? 1)) |];
      injection Hstep as <- _; reflexivity. }
  assert (HsV : has (s1 (signal e)) (kSignalViewUpdated E)
                = has (signal e) (kSignalViewUpdated E))
    by (now apply has_clearBits_other).
  assert (HsN : has (s1 (signal e)) (kSignalNoUpdate E) = true)
    by (unfold s1; now rewrite has_clearBits_other).
  split; [reflexivity |]. split; [assumption |]. split; [reflexivity |].
  split; [| split; [| split; [| intros Hrm; split; [| split]]]].
  - rewrite Hsig. destruct (has (s1 (signal e)) (kSignalViewUpdated E)).
    + apply has_clearBits_false, has_clearBits_same.
    + apply has_clearBits_same.
  - intros Hv. rewrite Hsig, HsV, Hv, clearBits_lor. split.
    + apply has_clearBits_false, has_clearBits_same.
    + apply has_clearBits_same.
  - intros Hv. rewrite Hsig, HsV, Hv. exact HsN.
  - rewrite Hrm in Hstep. cbn [negb] in Hstep. unfold staleCall.
    rewrite <- Hpic. exists post. rewrite Hpost.
    destruct (picNotValid wAt =? 1); cbn [negb] in Hstep;
      injection Hstep as _ <-; cbn; now rewrite <- app_assoc.
  - apply Hzero. rewrite Hrm in Hstep. cbn [negb] in Hstep.
    destruct (negb (picNotValid wAt =? 1)); injection Hstep as _ <-;
      unfold readSelector, writeSelectorValue;
      rewrite selectors_writeSelector, Z.eqb_refl; reflexivity.
  - intros Hp. rewrite Hrm in Hstep. cbn [negb] in Hstep.
    rewrite <- Hpic in Hp. apply Z.eqb_neq in Hp. rewrite Hp in Hstep.
    cbn [negb] in Hstep. injection Hstep as <- _. reflexivity.
Qed.

(** ** Finalisation *)

Lemma forEach_writeSignal (l : list AnimateEntry) (w : World) :
  forEach writeSignal l w = (l, signalsWritten l w).
Proof.
  revert w. induction l as [| h t IH]; intros w; [reflexivity |].
  cbn [forEach writeSignal]. rewrite IH. reflexivity.
Qed.

Lemma restoreEntry_words (w : World) (e : AnimateEntry) :
  restoreEntry w e
  = (set_signal e (readSelectorValue w (object e) s_signal),
     disposedWorld
       (restoredWorld w (object e) (readSelectorValue w (object e) s_signal))
       (object e) (readSelectorValue w (object e) s_signal)).
Proof.
  unfold restoreEntry, restoredWorld, disposedWorld.
  set (s := readSelectorValue w (object e) s_signal).
  assert (Hcond : (Z.land s (Z.lor (kSignalNoUpdate E) (kSignalRemoveView E))
                   =? 0)
                  = negb (has s (kSignalNoUpdate E))
                    && negb (has s (kSignalRemoveView E))).
  { rewrite <- negb_orb, <- has_lor. unfold has. now rewrite negb_involutive. }
  rewrite Hcond. reflexivity.
Qed.

(** C6: [restoreAndDelete] first writes every entry's signal to its object,
    front to back, and nothing else; then, walking from the end of the list,
    it re-reads each object's signal from the world as the entries behind it
    (and their disposal scripts) left it, keeps that signal in the entry,
    restores the background and zeroes underBits exactly when the re-read
    signal has neither NoUpdate nor RemoveView, and then, on the world so
    restored, invokes the object's disposal exactly when the re-read signal
    has DisposeMe; the entries in front are processed after that. *)
Theorem restoreAndDelete_rereads (a : GfxAnimate) (w : World)
    (before after : list AnimateEntry) (e : AnimateEntry)
    (Hlist : a_list a = before ++ e :: after) :
  let wWritten := signalsWritten (a_list a) w in
  forEach writeSignal (a_list a) w = (a_list a, wWritten)
  /\ calls wWritten = calls w
  /\ exists a1 wAt b1 w1,
       forEachRev restoreEntry after wWritten = (a1, wAt)
       /\ let s := readSelectorValue wAt (object e) s_signal in
          let wRestored := restoredWorld wAt (object e) s in
          let wDisposed := disposedWorld wRestored (object e) s in
          forEachRev restoreEntry before wDisposed = (b1, w1)
          /\ length b1 = length before
          /\ restoreAndDelete a w
             = (mkAnimate (b1 ++ set_signal e s :: a1) (a_lastCastData a), w1).
Proof.
  intros wWritten. split; [apply forEach_writeSignal |]. split.
  - subst wWritten. generalize (a_list a). intros l. revert w.
    induction l as [| h t IH]; intros w; [reflexivity |].
    cbn [signalsWritten fold_left]. unfold signalsWritten in IH.
    now rewrite IH.
  - unfold restoreAndDelete. rewrite forEach_writeSignal. fold wWritten.
    clearbody wWritten. rewrite Hlist, forEachRev_middle.
    destruct (forEachRev restoreEntry after wWritten) as [a1 wAt].
    rewrite restoreEntry_words.
    pose proof (forEachRev_length restoreEntry before
                  (disposedWorld
                     (restoredWorld wAt (object e)
                        (readSelectorValue wAt (object e) s_signal))
                     (object e) (readSelectorValue wAt (object e) s_signal)))
      as Hlen.
    destruct (forEachRev restoreEntry before _) as [b1 w1] eqn:Hb.
    exists a1, wAt, b1, w1. cbn [fst] in Hlen.
    split; [reflexivity |]. cbv zeta. split; [exact Hb |].
    split; [exact Hlen | reflexivity].
Qed.

(** ** Re-animation of the retained cast *)

Lemma set_calls_calls (w : World) : set_calls w (calls w) = w.
Proof. now destruct w. Qed.

Lemma forEach_reAnimateSave (l : list AnimateEntry) (w : World) :
  forEach reAnimateSave l w
  = (withHandles l (savedHandles (calls w) l),
     set_calls w (calls w ++ saveDrawCalls l (savedHandles (calls w) l))).
Proof.
  revert w. induction l as [| e t IH]; intros w.
  - cbn. now rewrite app_nil_r, set_calls_calls.
  - cbn [forEach reAnimateSave bitsSave].
    cbn [savedHandles saveDrawCalls withHandles].
    set (h := newBits E (calls w) (celRect e) castMask).
    fold castMask. fold h.
    rewrite IH. unfold drawEntry. rewrite !calls_emit.
    cbn [celRect set_castHandle viewId loopNo celNo priority paletteNo scaleX
           scaleY].
    rewrite <- (app_assoc (calls w)). cbn [app]. fold (saveDraw e h).
    f_equal. unfold emit, set_calls. cbn [selectors nodes lists globalFastCast
      globalCurrentRoom abortScriptProcessing throttleTrigger picNotValid
      curPort cursorVisible calls].
    rewrite <- !app_assoc. reflexivity.
Qed.

Lemma forEach_reAnimateRestore (l : list AnimateEntry) (w : World) :
  forEach reAnimateRestore l w
  = (l, set_calls w (calls w ++ map BitsRestore (map castHandle l))).
Proof.
  revert w. induction l as [| e t IH]; intros w.
  - cbn. now rewrite app_nil_r, set_calls_calls.
  - cbn [forEach reAnimateRestore]. rewrite IH. rewrite calls_emit.
    cbn [map]. rewrite <- app_assoc. reflexivity.
Qed.

Lemma castHandle_withHandles (l : list AnimateEntry) (hs : list reg_t) :
  length hs = length l -> map castHandle (withHandles l hs) = hs.
Proof.
  revert hs. induction l as [| e t IH]; intros [| h hs] Hlen;
    try discriminate; [reflexivity |].
  cbn. f_equal. apply IH. now injection Hlen.
Qed.

Lemma savedHandles_length (l : list AnimateEntry) (cs : list GfxCall) :
  length (savedHandles cs l) = length l.
Proof.
  revert cs. induction l as [| e t IH]; intros cs; [reflexivity |].
  cbn. now rewrite IH.
Qed.

(** C7: [reAnimate] changes nothing but the call log and the snapshot's
    handles.  It saves the background of each snapshot entry, in snapshot
    order and over the visual and priority planes only, drawing each entry
    right after its save; then shows the given rectangle once; then restores
    the saved backgrounds in the reverse of the order of saving.  For a
    snapshot X, Y, Z the restores are Z's, Y's, X's.  With an empty snapshot
    it only shows the rectangle. *)
Theorem reAnimate_lifo (a : GfxAnimate) (w : World) (rect : Rect) :
  let cast := a_lastCastData a in
  let handles := savedHandles (calls w) cast in
  reAnimate a w rect
  = (mkAnimate (a_list a) (withHandles cast handles),
     set_calls w (calls w ++ saveDrawCalls cast handles ++ [BitsShow rect]
                          ++ map BitsRestore (rev handles)))
  /\ length handles = length cast
  /\ (cast = [] -> reAnimate a w rect = (a, emit w (BitsShow rect)))
  /\ (forall X Y Z, cast = [X; Y; Z] ->
      exists hX hY hZ,
        calls (snd (reAnimate a w rect))
        = calls w ++ saveDraw X hX ++ saveDraw Y hY ++ saveDraw Z hZ
                  ++ [BitsShow rect]
                  ++ [BitsRestore hZ; BitsRestore hY; BitsRestore hX]).
Proof.
  cbv zeta.
  pose proof (savedHandles_length (a_lastCastData a) (calls w)) as Hlen.
  assert (Hmain : reAnimate a w rect
                  = (mkAnimate (a_list a)
                       (withHandles (a_lastCastData a)
                          (savedHandles (calls w) (a_lastCastData a))),
                     set_calls w
                       (calls w
                        ++ saveDrawCalls (a_lastCastData a)
                             (savedHandles (calls w) (a_lastCastData a))
                        ++ [BitsShow rect]
                        ++ map BitsRestore
                             (rev (savedHandles (calls w)
                                     (a_lastCastData a)))))).
  { unfold reAnimate.
    destruct (a_lastCastData a) as [| e t] eqn:Hcast.
    - destruct a as [l c]. cbn in *. subst c. reflexivity.
    - rewrite forEach_reAnimateSave.
      unfold forEachRev. rewrite forEach_reAnimateRestore.
      rewrite rev_involutive, calls_emit.
      rewrite map_rev, castHandle_withHandles by assumption.
      cbn [calls set_calls]. rewrite <- !app_assoc. reflexivity. }
  split; [exact Hmain |]. split; [exact Hlen |]. split.
  - intros Hnil. unfold reAnimate. now rewrite Hnil.
  - intros X Y Z Hxyz. rewrite Hmain. cbn [snd calls set_calls].
    rewrite Hxyz. cbn [savedHandles saveDrawCalls].
    do 3 eexists. cbn [rev app map]. rewrite <- !app_assoc. reflexivity.
Qed.

(** ** List building and sorting *)


Lemma Traversal_lookup (w : World) (addr : reg_t) (objs : list reg_t) :
  Traversal w addr objs ->
  lookupNode w addr true
  = Ret (match objs with [] => None | _ :: _ => nodes w addr end).
Proof.
  intros H. destruct H as [| addr n objs Hnn Hn _]; [reflexivity |].
  unfold lookupNode. now rewrite Hnn, Hn.
Qed.





Lemma sortHelper_strictWeakOrder : strictWeakOrder sortHelper.
Proof.
  unfold strictWeakOrder, sortHelper. repeat split.
  - intros a. rewrite !Z.eqb_refl. apply Z.ltb_irrefl.
  - intros a b c.
    destruct (y a =? y b) eqn:Hab, (y b =? y c) eqn:Hbc, (y a =? y c) eqn:Hac,
      (z a =? z b) eqn:Zab, (z b =? z c) eqn:Zbc, (z a =? z c) eqn:Zac;
      rewrite ?Z.eqb_eq, ?Z.eqb_neq in *; lia.
  - intros a b c.
    destruct (y a =? y b) eqn:Hab, (y b =? y c) eqn:Hbc, (y a =? y c) eqn:Hac,
      (z a =? z b) eqn:Zab, (z b =? z c) eqn:Zbc, (z a =? z c) eqn:Zac;
      rewrite ?Z.eqb_eq, ?Z.eqb_neq in *; lia.
Qed.










(** *** A list longer than the [int16] counter *)

Lemma chainWorld_node (n k : Z) :
  1 <= k <= n ->
  nodes (chainWorld n) k = Some (mkNode k (if k =? n then 0 else k + 1)).
Proof.
  intros Hk. cbn.
  replace (1 <=? k) with true by (symmetry; apply Z.leb_le; lia).
  replace (k <=? n) with true by (symmetry; apply Z.leb_le; lia).
  reflexivity.
Qed.

Lemma chainWorld_traversal (n : Z) (c : nat) (k : Z) :
  1 <= k -> k + Z.of_nat c = n ->
  Traversal (chainWorld n) k (chainFrom k (S c)).
Proof.
  revert k. induction c as [| c IH]; intros k Hk Hn.
  - pose proof (chainWorld_node n k ltac:(lia)) as Hnode.
    replace (k =? n) with true in Hnode by (symmetry; apply Z.eqb_eq; lia).
    apply (Traversal_node _ k (mkNode k 0) []).
    + apply Z.eqb_neq. lia.
    + exact Hnode.
    + constructor.
  - pose proof (chainWorld_node n k ltac:(lia)) as Hnode.
    replace (k =? n) with false in Hnode by (symmetry; apply Z.eqb_neq; lia).
    apply (Traversal_node _ k (mkNode k (k + 1)) (chainFrom (k + 1) (S c))).
    + apply Z.eqb_neq. lia.
    + exact Hnode.
    + apply IH; lia.
Qed.





(** ** The behaviour walk and the frame *)

Lemma picNotValid_emit (w : World) (c : GfxCall) :
  picNotValid (emit w c) = picNotValid w.
Proof. reflexivity. Qed.




Lemma setPort_throttle (w : World) (p : Port) :
  throttleTrigger (snd (setPort w p)) = throttleTrigger w.
Proof. reflexivity. Qed.



(** * Further properties of the compositor *)

(** ** The comparator *)

(** X1: [sortHelper] is a strict weak ordering, as [Common::sort] needs:
    irreflexive, transitive, with transitive incomparability; it is
    asymmetric, and two entries that it does not order either way agree in
    y, z and insertion index. *)
Theorem sortHelper_orders :
  strictWeakOrder sortHelper
  /\ (forall a b, sortHelper a b = true -> sortHelper b a = false)
  /\ (forall a b, sortHelper a b = false -> sortHelper b a = false ->
      y a = y b /\ z a = z b /\ givenOrderNo a = givenOrderNo b).
Proof.
  split; [exact sortHelper_strictWeakOrder |]. split.
  - intros a b. unfold sortHelper.
    destruct (y a =? y b) eqn:Hab, (y b =? y a) eqn:Hba,
      (z a =? z b) eqn:Zab, (z b =? z a) eqn:Zba;
      rewrite ?Z.eqb_eq, ?Z.eqb_neq in *; lia.
  - intros a b. unfold sortHelper.
    destruct (y a =? y b) eqn:Hab, (y b =? y a) eqn:Hba,
      (z a =? z b) eqn:Zab, (z b =? z a) eqn:Zba;
      rewrite ?Z.eqb_eq, ?Z.eqb_neq in *; lia.
Qed.

(** ** The behaviour walk *)

Lemma Traversal_same_nodes (w w' : World) (addr : reg_t) (objs : list reg_t) :
  nodes w' = nodes w -> Traversal w addr objs -> Traversal w' addr objs.
Proof.
  intros Hn H. induction H as [| addr n objs Hnn Hnode _ IH];
    [constructor |].
  apply Traversal_node; [assumption | now rewrite Hn | assumption].
Qed.

Lemma lookupNode_same_nodes (w w' : World) (addr : reg_t) (strict : bool) :
  nodes w' = nodes w -> lookupNode w' addr strict = lookupNode w addr strict.
Proof.
  intros Hn. unfold lookupNode. now rewrite Hn.
Qed.

Lemma invokeLoop_doitAll
    (Hscripts : forall w o,
        nodes (invokeSelector E w o s_doit) = nodes w
        /\ globalFastCast (invokeSelector E w o s_doit) = globalFastCast w
        /\ (aborted (abortScriptProcessing w) = false ->
            aborted (abortScriptProcessing (invokeSelector E w o s_doit))
            = false))
    (w0 : World) (addr : reg_t) (objs : list reg_t) :
  Traversal w0 addr objs ->
  forall fuel w curNode,
    nodes w = nodes w0 ->
    fastCastEnabled E && negb (isNull (globalFastCast w)) = false ->
    aborted (abortScriptProcessing w) = false ->
    (length objs <= fuel)%nat ->
    lookupNode w0 addr true = Ret curNode ->
    invokeLoop fuel w addr curNode = Ret (true, doitAll objs w).
Proof.
  induction 1 as [| addr n objs Hnn Hnode Hrest IH];
    intros fuel w curNode Hnodes Hfc Hcalm Hfuel Hlook.
  - cbn in Hlook. injection Hlook as <-. destruct fuel; reflexivity.
  - unfold lookupNode in Hlook. rewrite Hnn, Hnode in Hlook.
    injection Hlook as <-.
    destruct fuel as [| fuel]; [cbn in Hfuel; lia |].
    cbn [invokeLoop]. rewrite Hfc.
    pose proof (Traversal_lookup _ _ _ Hrest) as Hnext.
    cbn [doitAll fold_left].
    destruct (has (readSelectorValue w (value n) s_signal) (kSignalFrozen E))
      eqn:Hfrozen; cbn [negb].
    + rewrite (lookupNode_same_nodes w0 w _ _ Hnodes), Hnext. cbn [bind].
      apply IH; try assumption. cbn in Hfuel. lia.
    + destruct (Hscripts w (value n)) as (Hsn & Hsg & Hsa).
      rewrite (Hsa Hcalm).
      assert (Hnodes' : nodes (invokeSelector E w (value n) s_doit)
                        = nodes w0) by congruence.
      rewrite (lookupNode_same_nodes w0 _ addr false Hnodes').
      unfold lookupNode at 1. rewrite Hnn, Hnode. cbn [bind].
      rewrite (lookupNode_same_nodes w0 _ _ _ Hnodes'), Hnext. cbn [bind].
      apply IH; try assumption.
      * now rewrite Hsg.
      * now apply Hsa.
      * cbn in Hfuel. lia.
Qed.

(** X2: over scripts whose [doit] leaves the node table and the fast-cast
    global alone and does not abort script processing, with no fast cast
    and no abort pending, [invoke] on a well-formed list succeeds, given one
    unit of fuel per node: it runs the [doit] of each object in list order,
    skipping the objects that are frozen when their turn comes, and reports
    [true]. *)
Theorem invoke_runs_every_doit (w : World) (cast : SciList)
    (objs : list reg_t) (fuel : nat)
    (Hscripts : forall w' o,
        nodes (invokeSelector E w' o s_doit) = nodes w'
        /\ globalFastCast (invokeSelector E w' o s_doit) = globalFastCast w'
        /\ (aborted (abortScriptProcessing w') = false ->
            aborted (abortScriptProcessing (invokeSelector E w' o s_doit))
            = false))
    (Hwalk : Traversal w (first cast) objs)
    (Hquiet : fastCastEnabled E && negb (isNull (globalFastCast w)) = false)
    (Hcalm : aborted (abortScriptProcessing w) = false)
    (Hfuel : (length objs <= fuel)%nat) :
  invoke fuel w cast = Ret (true, doitAll objs w).
Proof.
  unfold invoke. rewrite (Traversal_lookup _ _ _ Hwalk). cbn [bind].
  eapply invokeLoop_doitAll; try eassumption; try reflexivity.
  apply (Traversal_lookup _ _ _ Hwalk).
Qed.

Lemma invokeLoop_frozen (w : World) (addr : reg_t) (objs : list reg_t) :
  Traversal w addr objs ->
  forall fuel curNode,
    fastCastEnabled E && negb (isNull (globalFastCast w)) = false ->
    Forall (fun o => has (readSelectorValue w o s_signal) (kSignalFrozen E)
                     = true) objs ->
    (length objs <= fuel)%nat ->
    lookupNode w addr true = Ret curNode ->
    invokeLoop fuel w addr curNode = Ret (true, w).
Proof.
  induction 1 as [| addr n objs Hnn Hnode Hrest IH];
    intros fuel curNode Hfc Hall Hfuel Hlook.
  - cbn in Hlook. injection Hlook as <-. destruct fuel; reflexivity.
  - unfold lookupNode in Hlook. rewrite Hnn, Hnode in Hlook.
    injection Hlook as <-.
    destruct fuel as [| fuel]; [cbn in Hfuel; lia |].
    apply Forall_cons_iff in Hall. destruct Hall as [Hfrozen Hall].
    cbn [invokeLoop]. rewrite Hfc, Hfrozen. cbn [negb].
    rewrite (Traversal_lookup _ _ _ Hrest). cbn [bind].
    apply IH; try assumption.
    + cbn in Hfuel. lia.
    + apply (Traversal_lookup _ _ _ Hrest).
Qed.

(** X3: when every object of a well-formed list is frozen and no fast cast
    is pending, [invoke] runs no script at all, whatever the scripts are:
    it reports [true] and leaves the world as it was. *)
Theorem invoke_skips_frozen_cast (w : World) (cast : SciList)
    (objs : list reg_t) (fuel : nat)
    (Hwalk : Traversal w (first cast) objs)
    (Hquiet : fastCastEnabled E && negb (isNull (globalFastCast w)) = false)
    (Hfrozen : Forall (fun o => has (readSelectorValue w o s_signal)
                                    (kSignalFrozen E) = true) objs)
    (Hfuel : (length objs <= fuel)%nat) :
  invoke fuel w cast = Ret (true, w).
Proof.
  unfold invoke. rewrite (Traversal_lookup _ _ _ Hwalk). cbn [bind].
  eapply invokeLoop_frozen; try eassumption.
  apply (Traversal_lookup _ _ _ Hwalk).
Qed.

(** ** The frame *)

Lemma animateFrame_ends (fuel : nat) (a a' : GfxAnimate) (w w' : World)
    (cast : SciList) (old : Z) :
  animateFrame fuel a w cast old = Ret (a', w') ->
  curPort w' = curPort w
  /\ throttleTrigger w' = true
  /\ exists pre, calls w' = pre ++ [EventUpdateScreen; SetPort (curPort w)].
Proof.
  unfold animateFrame. cbn [setPort]. intros H.
  destruct (makeSortedList _ _ _) as [a2 | |]; cbn [bind] in H;
    try discriminate.
  destruct (fill _ _ _) as [[[a3 w3] old'] | |]; cbn [bind] in H;
    try discriminate.
  destruct (negb (old' =? 0)).
  - destruct (update a3 _) as [au wu].
    destruct (drawCels au _) as [a5 w5].
    destruct (updateScreen a5 _ old') as [a7 w7].
    destruct (restoreAndDelete a7 w7) as [a8 w8].
    injection H as _ <-. repeat split. exists (calls w8).
    cbn. now rewrite <- app_assoc.
  - destruct (drawCels a3 w3) as [a5 w5].
    destruct (updateScreen a5 _ old') as [a7 w7].
    destruct (restoreAndDelete a7 w7) as [a8 w8].
    injection H as _ <-. repeat split. exists (calls w8).
    cbn. now rewrite <- app_assoc.
Qed.

(** X4: a call of [kernelAnimate] on a list, without the behaviour walk,
    that comes back at all comes back with the drawing port it found, the
    throttle requested, and the event manager's screen update followed by
    the port switch as its last two calls, whatever the disposal scripts
    and the transition did in between. *)
Theorem kernelAnimate_restores_port (fuel : nat) (a a' : GfxAnimate)
    (w w' : World) (listReference : reg_t)
    (Hlist : isNull listReference = false)
    (Hrun : kernelAnimate fuel a w listReference false = Ret (a', w')) :
  curPort w' = curPort w
  /\ throttleTrigger w' = true
  /\ exists pre, calls w' = pre ++ [EventUpdateScreen; SetPort (curPort w)].
Proof.
  unfold kernelAnimate in Hrun. rewrite Hlist in Hrun.
  fold (animatePrelude w) in Hrun.
  destruct (lookupList (animatePrelude w) listReference) as [l | |];
    cbn [bind] in Hrun; try discriminate.
  apply animateFrame_ends in Hrun.
  assert (Hport : curPort (animatePrelude w) = curPort w).
  { unfold animatePrelude.
    destruct (negb (picNotValid w =? 0)), (getSciVersion E >=? _);
      reflexivity. }
  now rewrite Hport in Hrun.
Qed.

(** ** Drawing the remaining cels *)

Lemma drawCelsEntry_cases (w : World) (e : AnimateEntry) :
  drawCelsEntry w e
  = if drawable e then
      (drawnEntry e,
       emit (writeSelector (snd (bitsSave w (celRect e) (GFX_SCREEN_MASK_ALL E)))
               (object e) s_underBits
               (fst (bitsSave w (celRect e) (GFX_SCREEN_MASK_ALL E))))
            (DrawCel (viewId e) (loopNo e) (celNo e) (celRect e) (priority e)
               (paletteNo e) (scaleX e) (scaleY e) (Some (scaleSignal e))),
       [drawnEntry e])
    else (e, w, []).
Proof.
  unfold drawCelsEntry, drawable, drawnEntry. rewrite !has_lor.
  destruct (has (signal e) (kSignalNoUpdate E)),
    (has (signal e) (kSignalHidden E)),
    (has (signal e) (kSignalAlwaysUpdate E)); cbn [orb negb andb];
    try reflexivity;
    cbn [bitsSave fst snd signal set_showBitsFlag];
    destruct (has (signal e) (kSignalRemoveView E)); reflexivity.
Qed.

Lemma drawCelsLoop_spec (l : list AnimateEntry) (w : World) :
  fst (fst (drawCelsLoop l w))
  = map (fun e => if drawable e then drawnEntry e else e) l
  /\ snd (drawCelsLoop l w) = map drawnEntry (filter drawable l)
  /\ exists delta,
       calls (snd (fst (drawCelsLoop l w))) = calls w ++ delta
       /\ drawCount delta = length (filter drawable l).
Proof.
  revert w. induction l as [| e t IH]; intros w.
  - cbn. repeat split. exists []. now rewrite app_nil_r.
  - cbn [drawCelsLoop]. rewrite drawCelsEntry_cases.
    destruct (drawable e) eqn:Hd.
    + match goal with
      | |- context [drawCelsLoop t ?w1] =>
          destruct (IH w1) as (H1 & H2 & delta & H3 & H4);
          destruct (drawCelsLoop t w1) as [[t' w2] c2]
      end.
      cbn [fst snd] in *. cbn [map filter]. rewrite Hd. cbn [map app].
      rewrite H1, H2. repeat split.
      eexists. rewrite H3. cbn [bitsSave fst snd].
      rewrite calls_emit. cbn [calls writeSelector set_selectors].
      rewrite calls_emit, <- !app_assoc. split; [reflexivity |].
      cbn [app drawCount length]. now rewrite H4.
    + destruct (IH w) as (H1 & H2 & delta & H3 & H4).
      destruct (drawCelsLoop t w) as [[t' w2] c2].
      cbn [fst snd] in *. cbn [map filter]. rewrite Hd. cbn [app].
      rewrite H1, H2. repeat split. now exists delta.
Qed.

(** X5: [drawCels] replaces the retained snapshot by the entries it draws,
    in list order, as it leaves them: these are the entries with none of
    NoUpdate, Hidden and AlwaysUpdate; each is marked as shown and loses
    RemoveView, every other entry is left as it is; one cel is drawn per
    snapshot entry and the snapshot entries are still free of NoUpdate,
    Hidden and AlwaysUpdate. *)
Theorem drawCels_snapshot (Hflags : FlagsOk) (a : GfxAnimate) (w : World) :
  a_list (fst (drawCels a w))
  = map (fun e => if drawable e then drawnEntry e else e) (a_list a)
  /\ a_lastCastData (fst (drawCels a w))
     = map drawnEntry (filter drawable (a_list a))
  /\ (exists delta,
         calls (snd (drawCels a w)) = calls w ++ delta
         /\ drawCount delta = length (a_lastCastData (fst (drawCels a w))))
  /\ Forall (fun e => drawable e = true /\ showBitsFlag e = true
                      /\ has (signal e) (kSignalRemoveView E) = false)
            (a_lastCastData (fst (drawCels a w))).
Proof.
  pose proof (flagsApart Hflags 2 7 ltac:(lia)) as HNR.
  pose proof (flagsApart Hflags 3 7 ltac:(lia)) as HHR.
  pose proof (flagsApart Hflags 5 7 ltac:(lia)) as HAR.
  cbn in HNR, HHR, HAR.
  apply disjoint_sym in HNR. apply disjoint_sym in HHR.
  apply disjoint_sym in HAR.
  destruct (flag16 Hflags (kSignalNoUpdate E) ltac:(cbn; tauto)) as [HN16 _].
  destruct (flag16 Hflags (kSignalHidden E) ltac:(cbn; tauto)) as [HH16 _].
  destruct (flag16 Hflags (kSignalAlwaysUpdate E) ltac:(cbn; tauto))
    as [HA16 _].
  unfold drawCels.
  destruct (drawCelsLoop_spec (a_list a) w) as (H1 & H2 & delta & H3 & H4).
  destruct (drawCelsLoop (a_list a) w) as [[l w'] c].
  cbn [fst snd a_list a_lastCastData] in *.
  split; [exact H1 |]. split; [exact H2 |]. split.
  - exists delta. split; [exact H3 |]. now rewrite H2, length_map.
  - rewrite H2. apply Forall_forall. intros e' He'.
    apply in_map_iff in He'. destruct He' as (e & <- & He).
    apply filter_In in He. destruct He as [_ Hd].
    unfold drawnEntry. destruct (has (signal e) (kSignalRemoveView E)) eqn:Hr.
    + repeat split.
      * unfold drawable in *. cbn [signal set_signal].
        now rewrite !has_clearBits_other.
      * cbn [signal set_signal]. apply has_clearBits_same.
    + repeat split; assumption.
Qed.

(** ** Screen reconciliation *)

Lemma updateScreenEntry_condition (old : Z) (e : AnimateEntry) :
  showBitsFlag e
  || negb (has (signal e) (Z.lor (kSignalRemoveView E) (kSignalNoUpdate E))
           || (negb (has (signal e) (kSignalRemoveView E))
               && has (signal e) (kSignalNoUpdate E)
               && negb (old =? 0)))
  = reconciled e.
Proof.
  unfold reconciled. rewrite has_lor.
  destruct (showBitsFlag e), (has (signal e) (kSignalRemoveView E)),
    (has (signal e) (kSignalNoUpdate E)), (old =? 0); reflexivity.
Qed.

(** X6: the invalidation counter handed to [updateScreen] has no influence
    on what it does.  An entry is reconciled exactly when it was drawn this
    frame or has neither RemoveView nor NoUpdate; an entry that is not
    reconciled is left, with the world, as it is.  For a reconciled entry
    the rectangle last shown is read from the object; if it meets the new
    rectangle their union is shown once, otherwise the old rectangle and
    then the new one are shown; the object's last-shown rectangle becomes
    the new rectangle; a Hidden entry gets RemoveView for the next cycle. *)
Theorem updateScreen_ignores_counter (a : GfxAnimate) (w : World)
    (old old' : Z) :
  updateScreen a w old = updateScreen a w old'
  /\ (forall w0 e, reconciled e = false ->
                   updateScreenEntry old w0 e = (e, w0))
  /\ (forall w0 e, reconciled e = true ->
      let r := updateScreenEntry old w0 e in
      let ls := lastShownRect w0 (object e) in
      calls (snd r)
      = calls w0
        ++ (if rectIsEmpty E (rectClip E ls (celRect e))
            then [BitsShow ls; BitsShow (celRect e)]
            else [BitsShow (rectExtend E ls (celRect e))])
      /\ readSelectorValue (snd r) (object e) s_lsLeft
         = toUint16 (left (celRect e))
      /\ readSelectorValue (snd r) (object e) s_lsTop
         = toUint16 (top (celRect e))
      /\ readSelectorValue (snd r) (object e) s_lsRight
         = toUint16 (right (celRect e))
      /\ readSelectorValue (snd r) (object e) s_lsBottom
         = toUint16 (bottom (celRect e))
      /\ fst r
         = (if has (signal e) (kSignalHidden E)
            then set_signal e (setBits (signal e) (kSignalRemoveView E))
            else e)).
Proof.
  assert (Hstep : forall o w0 e,
             updateScreenEntry o w0 e = updateScreenEntry 0 w0 e).
  { intros o w0 e. unfold updateScreenEntry.
    now rewrite !updateScreenEntry_condition. }
  split; [| split].
  - unfold updateScreen.
    assert (Hloop : forall l w0,
               forEach (updateScreenEntry old) l w0
               = forEach (updateScreenEntry old') l w0).
    { induction l as [| e t IH]; intros w0; [reflexivity |].
      cbn [forEach]. rewrite (Hstep old), (Hstep old').
      destruct (updateScreenEntry 0 w0 e) as [e1 w1]. now rewrite IH. }
    now rewrite Hloop.
  - intros w0 e Hr. unfold updateScreenEntry.
    now rewrite updateScreenEntry_condition, Hr.
  - intros w0 e Hr. cbv zeta. unfold updateScreenEntry.
    rewrite updateScreenEntry_condition, Hr. fold (lastShownRect w0 (object e)).
    destruct (rectIsEmpty E (rectClip E (lastShownRect w0 (object e))
                               (celRect e))); cbn [negb fst snd].
    + split; [cbn; now rewrite <- app_assoc |].
      unfold readSelectorValue, writeSelectorValue, emit.
      cbn [selectors set_calls writeSelector set_selectors Selector_eqb andb].
      rewrite !Z.eqb_refl. cbn [andb].
      unfold toUint16. rewrite !Z.mod_mod by lia. repeat split.
    + split; [cbn; reflexivity |].
      unfold readSelectorValue, writeSelectorValue, emit.
      cbn [selectors set_calls writeSelector set_selectors Selector_eqb andb].
      rewrite !Z.eqb_refl. cbn [andb].
      unfold toUint16. rewrite !Z.mod_mod by lia. repeat split.
Qed.


(** ** Static compositing *)

Lemma drawCount_app (a b : list GfxCall) :
  drawCount (a ++ b) = (drawCount a + drawCount b)%nat.
Proof.
  induction a as [| c t IH]; [reflexivity |].
  destruct c; cbn; now rewrite ?IH.
Qed.

Lemma paints_refl (w : World) : paints 0 w w.
Proof.
  repeat split. exists []. now rewrite app_nil_r.
Qed.

Lemma paints_trans (n m : nat) (w1 w2 w3 : World) :
  paints n w1 w2 -> paints m w2 w3 -> paints (n + m) w1 w3.
Proof.
  intros (Hs1 & Hn1 & Hp1 & Hc1 & d1 & Hd1 & Hk1)
         (Hs2 & Hn2 & Hp2 & Hc2 & d2 & Hd2 & Hk2).
  repeat split; try congruence.
  - intros o s Hin. now rewrite Hs2, Hs1.
  - exists (d1 ++ d2). rewrite Hd2, Hd1, <- app_assoc.
    split; [reflexivity |]. now rewrite drawCount_app, Hk1, Hk2.
Qed.

Lemma paints_emit (w : World) (c : GfxCall) :
  paints (drawCount [c]) w (emit w c).
Proof.
  repeat split. now exists [c].
Qed.

Ltac notCast :=
  cbn; intros [H | [H | [H | [H | [H | []]]]]]; discriminate.

Lemma paints_write (w : World) (o : reg_t) (s : Selector) (v : Z) :
  ~ In s castSelectors -> paints 0 w (writeSelectorValue w o s v).
Proof.
  intros Hs. repeat split.
  - intros o' s' Hin. unfold writeSelectorValue.
    rewrite selectors_writeSelector.
    destruct (Selector_eqb s' s) eqn:Hq;
      [apply Selector_eqb_eq in Hq; subst; contradiction |].
    now rewrite andb_false_r.
  - exists []. cbn. now rewrite app_nil_r.
Qed.

Lemma paints_setNSRect (w : World) (o : reg_t) (r : Rect) :
  paints 0 w (setNSRect w o r).
Proof.
  unfold setNSRect.
  eapply (paints_trans 0 0). 2: (apply paints_write; notCast).
  eapply (paints_trans 0 0). 2: (apply paints_write; notCast).
  eapply (paints_trans 0 0). 2: (apply paints_write; notCast).
  apply paints_write; notCast.
Qed.

Lemma applyGlobalScaling_inv (view : GfxView) (w w' : World)
    (e e' : AnimateEntry) :
  applyGlobalScaling view w e = Ret (e', w') ->
  exists sy,
    e' = set_scale e (scaleSignal e) sy sy
    /\ w' = writeSelectorValue
              (writeSelectorValue w (object e) s_scaleX sy)
              (object e) s_scaleY sy.
Proof.
  unfold applyGlobalScaling. cbv zeta.
  match goal with
  | |- context [set_scale e (scaleSignal e) ?v ?v] => generalize v
  end.
  intros sy. destruct (_ || _); intros H; [discriminate |].
  exists sy. split; congruence.
Qed.

Lemma addToPicDrawEntry_inv (w w' : World) (e e' : AnimateEntry) :
  addToPicDrawEntry w e = Ret (e', w') -> sameCel e e' /\ paints 1 w w'.
Proof.
  unfold addToPicDrawEntry.
  set (view := getView E (viewId e)).
  set (e1 := if priority e =? -1 then _ else e).
  assert (H1 : sameCel e e1)
    by (subst e1; destruct (priority e =? -1); repeat split).
  set (e2 := if negb (isScaleable view) then _ else e1).
  assert (H2 : sameCel e e2).
  { subst e2. destruct (negb (isScaleable view)); [| exact H1].
    destruct H1 as (? & ? & ? & ? & ? & ? & ? & ? & ? & ?).
    repeat split; assumption. }
  clearbody e2. clear e1 H1.
  assert (Hmid : forall e3 w3,
             sameCel e e3 -> paints 0 w w3 ->
             (let w4 := drawEntry w3 e3 in
              if negb (has (signal e3) (kSignalIgnoreActor E))
              then Ret (set_celRect e3 (priorityStrip e3),
                        emit w4 (FillRect
                                   (celRect (set_celRect e3 (priorityStrip e3)))
                                   (GFX_SCREEN_MASK_CONTROL E) 0 0 15))
              else Ret (e3, w4)) = Ret (e', w') ->
             sameCel e e' /\ paints 1 w w').
  { intros e3 w3 H3 Hp. cbv zeta.
    assert (Hdraw : paints 1 w (drawEntry w3 e3)).
    { apply (paints_trans 0 1 _ w3); [exact Hp |].
      unfold drawEntry. apply (paints_emit w3 (DrawCel _ _ _ _ _ _ _ _ _)). }
    destruct (negb (has (signal e3) (kSignalIgnoreActor E))); intros H;
      injection H as <- <-.
    - split.
      + destruct H3 as (? & ? & ? & ? & ? & ? & ? & ? & ? & ?).
        repeat split; assumption.
      + apply (paints_trans 1 0 _ (drawEntry w3 e3)); [exact Hdraw |].
        apply (paints_emit _ (FillRect _ _ _ _ _)).
    - split; assumption. }
  destruct (has (scaleSignal e2) (kScaleSignalDoScaling E)).
  - destruct (has (scaleSignal e2) (kScaleSignalGlobalScaling E)).
    + destruct (applyGlobalScaling view w e2) as [[eg wg] | |] eqn:Hg;
        cbn [bind]; try discriminate.
      apply applyGlobalScaling_inv in Hg. destruct Hg as (sy & -> & ->).
      apply Hmid.
      * destruct H2 as (? & ? & ? & ? & ? & ? & ? & ? & ? & ?).
        repeat split; assumption.
      * eapply (paints_trans 0 0). 2: apply paints_setNSRect.
        eapply (paints_trans 0 0). 2: (apply paints_write; notCast).
        apply paints_write; notCast.
    + cbn [bind]. apply Hmid.
      * destruct H2 as (? & ? & ? & ? & ? & ? & ? & ? & ? & ?).
        repeat split; assumption.
      * apply paints_setNSRect.
  - cbn [bind]. apply Hmid.
    + destruct H2 as (? & ? & ? & ? & ? & ? & ? & ? & ? & ?).
      repeat split; assumption.
    + apply paints_refl.
Qed.

Lemma addToPicLoop_inv (l l' : list AnimateEntry) (w w' : World) :
  addToPicLoop l w = Ret (l', w') ->
  Forall2 sameCel l l' /\ paints (length l) w w'.
Proof.
  revert w l'. induction l as [| e t IH]; intros w l' Hloop.
  - cbn in Hloop. injection Hloop as <- <-.
    split; [constructor | apply paints_refl].
  - cbn [addToPicLoop] in Hloop.
    destruct (addToPicDrawEntry w e) as [[e1 w1] | |] eqn:He;
      cbn [bind] in Hloop; try discriminate.
    destruct (addToPicLoop t w1) as [[t1 w2] | |] eqn:Ht;
      cbn [bind] in Hloop; try discriminate.
    injection Hloop as <- <-.
    apply addToPicDrawEntry_inv in He. destruct He as [Hcel Hp].
    apply IH in Ht. destruct Ht as [Hcels Hps].
    split; [now constructor |].
    apply (paints_trans 1 (length t) _ w1); assumption.
Qed.

(** X7: kAddToPic does no loop or cel fix-ups and draws without regard to
    the signal: when [addToPicDrawCels] returns, every entry still names
    the same cel of the same object at the same place with the same signal,
    exactly one cel per entry has been drawn, and no object's loop, cel,
    priority, signal or underBits selector has been written; the node table,
    the picture validity and the port are as before. *)
Theorem addToPicDrawCels_draws_all (a a' : GfxAnimate) (w w' : World)
    (Hrun : addToPicDrawCels a w = Ret (a', w')) :
  Forall2 sameCel (a_list a) (a_list a')
  /\ paints (length (a_list a)) w w'
  /\ a_lastCastData a' = a_lastCastData a.
Proof.
  unfold addToPicDrawCels in Hrun.
  destruct (addToPicLoop (a_list a) w) as [[l wl] | |] eqn:Hloop;
    cbn [bind] in Hrun; try discriminate.
  injection Hrun as <- <-. cbn [a_list a_lastCastData].
  apply addToPicLoop_inv in Hloop. destruct Hloop as [H1 H2].
  split; [exact H1 | split; [exact H2 | reflexivity]].
Qed.



(** ** What the passes keep *)

Lemma forEach_Forall2 (R : AnimateEntry -> AnimateEntry -> Prop)
    (step : World -> AnimateEntry -> AnimateEntry * World)
    (Hstep : forall w e, R e (fst (step w e)))
    (l : list AnimateEntry) (w : World) :
  Forall2 R l (fst (forEach step l w)).
Proof.
  revert w. induction l as [| e t IH]; intros w; [constructor |].
  cbn [forEach]. specialize (Hstep w e).
  destruct (step w e) as [e1 w1]. specialize (IH w1).
  destruct (forEach step t w1) as [t1 w2]. now constructor.
Qed.

Lemma Forall2_rev_same (R : AnimateEntry -> AnimateEntry -> Prop)
    (l l' : list AnimateEntry) :
  Forall2 R l l' -> Forall2 R (rev l) (rev l').
Proof.
  induction 1 as [| a b l l' Hab _ IH]; [constructor |].
  cbn. apply Forall2_app; [assumption | now constructor].
Qed.

Lemma forEachRev_Forall2 (R : AnimateEntry -> AnimateEntry -> Prop)
    (step : World -> AnimateEntry -> AnimateEntry * World)
    (Hstep : forall w e, R e (fst (step w e)))
    (l : list AnimateEntry) (w : World) :
  Forall2 R l (fst (forEachRev step l w)).
Proof.
  unfold forEachRev.
  pose proof (forEach_Forall2 R step Hstep (rev l) w) as H.
  destruct (forEach step (rev l) w) as [l' w']. cbn [fst] in *.
  apply Forall2_rev_same in H. now rewrite rev_involutive in H.
Qed.

Lemma sameKeys_refl (e : AnimateEntry) : sameKeys e e.
Proof. repeat split. Qed.

Lemma sameKeys_trans (a b c : AnimateEntry) :
  sameKeys a b -> sameKeys b c -> sameKeys a c.
Proof.
  unfold sameKeys. intuition congruence.
Qed.

Lemma Forall2_sameKeys_trans (l1 l2 l3 : list AnimateEntry) :
  Forall2 sameKeys l1 l2 -> Forall2 sameKeys l2 l3 -> Forall2 sameKeys l1 l3.
Proof.
  intros H. revert l3. induction H as [| a b l l' Hab _ IH]; intros l3 H2.
  - inversion H2. constructor.
  - inversion H2 as [| b' c l2' l3' Hbc Hrest]; subst.
    constructor; [eapply sameKeys_trans; eassumption | now apply IH].
Qed.

Ltac keepsKeys :=
  intros;
  repeat match goal with
         | |- context [if ?c then _ else _] => destruct c
         end;
  cbn; repeat split.

Lemma updateRemove_keys (w : World) (e : AnimateEntry) :
  sameKeys e (fst (updateRemove w e)).
Proof. unfold updateRemove. keepsKeys. Qed.

Lemma updateAlways_keys (w : World) (e : AnimateEntry) :
  sameKeys e (fst (updateAlways w e)).
Proof. unfold updateAlways. keepsKeys. Qed.

Lemma updateSave_keys (w : World) (e : AnimateEntry) :
  sameKeys e (fst (updateSave w e)).
Proof. unfold updateSave, bitsSave. keepsKeys. Qed.

Lemma updateDraw_keys (w : World) (e : AnimateEntry) :
  sameKeys e (fst (updateDraw w e)).
Proof. unfold updateDraw. keepsKeys. Qed.

Lemma updateScreenEntry_keys (old : Z) (w : World) (e : AnimateEntry) :
  sameKeys e (fst (updateScreenEntry old w e)).
Proof. unfold updateScreenEntry. keepsKeys. Qed.

Lemma restoreEntry_keys (w : World) (e : AnimateEntry) :
  sameKeys e (fst (restoreEntry w e)).
Proof. unfold restoreEntry. cbn. repeat split. Qed.

Lemma drawnEntry_keys (e : AnimateEntry) :
  sameKeys e (if drawable e then drawnEntry e else e).
Proof. unfold drawnEntry. keepsKeys. Qed.

Lemma adjustInvalidCels_shape (view : GfxView) (w : World) (e : AnimateEntry) :
  exists l c, fst (adjustInvalidCels view w e) = set_celNo (set_loopNo e l) c.
Proof.
  unfold adjustInvalidCels.
  destruct (loopNo e >=? _); [| destruct (loopNo e <? 0)];
    match goal with
    | |- context [celNo ?x >=? ?c] =>
        destruct (celNo x >=? c); [| destruct (celNo x <? 0)]
    end; cbn [fst];
    first [ eexists; eexists; reflexivity
          | exists (loopNo e); eexists; destruct e; reflexivity
          | eexists; exists (celNo e); destruct e; reflexivity
          | exists (loopNo e), (celNo e); destruct e; reflexivity ].
Qed.

Lemma processViewScaling_shape (view : GfxView) (w w' : World)
    (e e' : AnimateEntry) :
  processViewScaling view w e = Ret (e', w') ->
  exists sig sx sy,
    e' = set_scale e sig sx sy
    /\ (isScaleable view = false -> sig = 0 /\ sx = 128 /\ sy = 128
                                    /\ w' = w).
Proof.
  unfold processViewScaling.
  destruct (isScaleable view); cbn [negb].
  - destruct (_ && _).
    + intros H. apply applyGlobalScaling_inv in H.
      destruct H as (sy & -> & _). exists (scaleSignal e), sy, sy.
      split; [reflexivity | discriminate].
    + intros H. injection H as <- <-.
      exists (scaleSignal e), (scaleX e), (scaleY e).
      split; [destruct e; reflexivity | discriminate].
  - intros H. injection H as <- <-. exists 0, 128, 128. now repeat split.
Qed.

Lemma setNsRect_shape (view : GfxView) (w : World) (e : AnimateEntry) :
  exists r, fst (setNsRect view w e) = set_celRect e r.
Proof.
  unfold setNsRect.
  destruct (has (scaleSignal e) _); [eexists; reflexivity |].
  destruct (_ && _); eexists; reflexivity.
Qed.

(** The entry [fillEntry] returns, field by field. *)
Lemma fillEntry_shape (w w' : World) (c c' : Z) (e e' : AnimateEntry) :
  fillEntry w c e = Ret (e', w', c') ->
  exists l cl sig sx sy r,
    e' = set_signal
           (set_priority
              (set_celRect (set_scale (set_celNo (set_loopNo e l) cl)
                              sig sx sy) r)
              (if has (signal e) (kSignalFixedPriority E) then priority e
               else toInt16 (kernelCoordinateToPriority E (y e))))
           (filledSignal (signal e))
    /\ (isScaleable (getView E (viewId e)) = false ->
        sig = 0 /\ sx = 128 /\ sy = 128).
Proof.
  intros H. pose proof (fillEntry_inv _ _ _ _ _ _ H) as [Hsig _].
  unfold fillEntry in H.
  destruct (adjustInvalidCels_shape (getView E (viewId e)) w e)
    as (l & cl & H1).
  destruct (adjustInvalidCels (getView E (viewId e)) w e) as [e1 w1].
  cbn [fst] in H1. subst e1.
  destruct (processViewScaling _ w1 _) as [[e2 w2] | |] eqn:H2;
    cbn [bind] in H; try discriminate.
  apply processViewScaling_shape in H2.
  destruct H2 as (sig & sx & sy & -> & Hunit).
  match type of H with
  | context [setNsRect ?v ?w0 ?e0] =>
      destruct (setNsRect_shape v w0 e0) as (r & H3);
      destruct (setNsRect v w0 e0) as [e3 w3]
  end.
  cbn [fst] in H3. subst e3.
  exists l, cl, sig, sx, sy, r.
  split; [| intros Hv; destruct (Hunit Hv) as (? & ? & ? & _); auto].
  cbn [signal set_celRect set_scale set_celNo set_loopNo object y] in H.
  destruct (has (signal e) (kSignalFixedPriority E)); cbn [negb] in H.
  - apply (f_equal (fun r => match r with
                             | Ret (x, _, _) => x
                             | _ => e
                             end)) in H.
    cbv beta iota in H. rewrite <- H.
    unfold filledSignal. cbn.
    destruct (has (signal e) (kSignalNoUpdate E)); reflexivity.
  - apply (f_equal (fun r => match r with
                             | Ret (x, _, _) => x
                             | _ => e
                             end)) in H.
    cbv beta iota in H. rewrite <- H.
    unfold filledSignal. cbn.
    destruct (has (signal e) (kSignalNoUpdate E)); reflexivity.
Qed.

Lemma fillLoop_Forall2 (R : AnimateEntry -> AnimateEntry -> Prop)
    (Hstep : forall w w' c c' e e',
        fillEntry w c e = Ret (e', w', c') -> R e e')
    (l l' : list AnimateEntry) (w w' : World) (c c' : Z) :
  fillLoop l w c = Ret (l', w', c') -> Forall2 R l l'.
Proof.
  revert w c l'. induction l as [| e t IH]; intros w c l' Hloop.
  - cbn in Hloop. injection Hloop as <- _ _. constructor.
  - cbn [fillLoop] in Hloop.
    destruct (fillEntry w c e) as [[[e1 w1] c1] | |] eqn:He;
      cbn [bind] in Hloop; try discriminate.
    destruct (fillLoop t w1 c1) as [[[t1 w2] c2] | |] eqn:Ht;
      cbn [bind] in Hloop; try discriminate.
    injection Hloop as <- <- <-.
    constructor; [eapply Hstep; eassumption | eapply IH; eassumption].
Qed.

Lemma sortHelper_sameKeys (a a' b b' : AnimateEntry) :
  sameKeys a a' -> sameKeys b b' -> sortHelper a' b' = sortHelper a b.
Proof.
  intros (Ha1 & _ & _ & _ & Ha2 & Ha3) (Hb1 & _ & _ & _ & Hb2 & Hb3).
  unfold sortHelper. now rewrite Ha1, Ha2, Ha3, Hb1, Hb2, Hb3.
Qed.

Lemma Forall2_in_right (R : AnimateEntry -> AnimateEntry -> Prop)
    (l l' : list AnimateEntry) (b' : AnimateEntry) :
  Forall2 R l l' -> In b' l' -> exists b, In b l /\ R b b'.
Proof.
  induction 1 as [| a b l l' Hab _ IH]; intros Hin; [contradiction |].
  destruct Hin as [<- | Hin].
  - exists a. split; [now left | assumption].
  - destruct (IH Hin) as (x & Hx & Hr). exists x. split; [now right | assumption].
Qed.

Lemma sorted_sameKeys (l l' : list AnimateEntry) :
  Forall2 sameKeys l l' ->
  StronglySorted (fun a b => sortHelper a b = true) l ->
  StronglySorted (fun a b => sortHelper a b = true) l'.
Proof.
  induction 1 as [| a a' l l' Hab Hrest IH]; intros Hs; [constructor |].
  apply StronglySorted_inv in Hs. destruct Hs as [Hs Hall].
  constructor; [now apply IH |].
  rewrite Forall_forall in *. intros b' Hb'.
  destruct (Forall2_in_right _ _ _ _ Hrest Hb') as (b & Hb & Hkeys).
  rewrite (sortHelper_sameKeys a a' b b' Hab Hkeys). now apply Hall.
Qed.

(** X9: no pass of the frame moves an entry or touches what it is sorted
    by: after [fill], [update], [drawCels], [updateScreen] and
    [restoreAndDelete] the working list holds, position by position, entries
    with the insertion index, object, view and x, y, z they had, so a list
    that [makeSortedList] left in [sortHelper] order is still in that order
    at the end of the frame. *)
Theorem passes_keep_order (a : GfxAnimate) (w : World) (c : Z) :
  (forall a' w' c', fill a w c = Ret (a', w', c') ->
                    Forall2 sameKeys (a_list a) (a_list a'))
  /\ Forall2 sameKeys (a_list a) (a_list (fst (update a w)))
  /\ Forall2 sameKeys (a_list a) (a_list (fst (drawCels a w)))
  /\ Forall2 sameKeys (a_list a) (a_list (fst (updateScreen a w c)))
  /\ Forall2 sameKeys (a_list a) (a_list (fst (restoreAndDelete a w)))
  /\ (forall l l',
         Forall2 sameKeys l l' ->
         StronglySorted (fun e1 e2 => sortHelper e1 e2 = true) l ->
         StronglySorted (fun e1 e2 => sortHelper e1 e2 = true) l').
Proof.
  split; [| split; [| split; [| split; [| split]]]].
  - intros a' w' c' H. unfold fill in H.
    destruct (fillLoop (a_list a) w c) as [[[l wl] cl] | |] eqn:Hloop;
      cbn [bind] in H; try discriminate.
    injection H as <- _ _. cbn [a_list].
    eapply fillLoop_Forall2; [| exact Hloop].
    intros w0 w1 c0 c1 e e' He. apply fillEntry_shape in He.
    destruct He as (l0 & cl0 & sig & sx & sy & r & -> & _). repeat split.
  - unfold update.
    pose proof (forEachRev_Forall2 sameKeys updateRemove updateRemove_keys
                  (a_list a) w) as H1.
    destruct (forEachRev updateRemove (a_list a) w) as [l1 w1].
    pose proof (forEach_Forall2 sameKeys updateAlways updateAlways_keys
                  l1 w1) as H2.
    destruct (forEach updateAlways l1 w1) as [l2 w2].
    pose proof (forEach_Forall2 sameKeys updateSave updateSave_keys
                  l2 w2) as H3.
    destruct (forEach updateSave l2 w2) as [l3 w3].
    pose proof (forEach_Forall2 sameKeys updateDraw updateDraw_keys
                  l3 w3) as H4.
    destruct (forEach updateDraw l3 w3) as [l4 w4].
    cbn [fst a_list] in *.
    eauto using Forall2_sameKeys_trans.
  - destruct (drawCelsLoop_spec (a_list a) w) as (H1 & _).
    unfold drawCels. destruct (drawCelsLoop (a_list a) w) as [[l w'] cst].
    cbn [fst a_list] in *. rewrite H1. clear H1.
    induction (a_list a) as [| e t IH]; [constructor |].
    cbn [map]. constructor; [apply drawnEntry_keys | exact IH].
  - unfold updateScreen.
    pose proof (forEach_Forall2 sameKeys (updateScreenEntry c)
                  (updateScreenEntry_keys c) (a_list a) w) as H.
    now destruct (forEach (updateScreenEntry c) (a_list a) w).
  - unfold restoreAndDelete. rewrite forEach_writeSignal.
    pose proof (forEachRev_Forall2 sameKeys restoreEntry restoreEntry_keys
                  (a_list a) (signalsWritten (a_list a) w)) as H.
    now destruct (forEachRev restoreEntry (a_list a) _).
  - exact sorted_sameKeys.
Qed.

(** X10: [fill] on a cast all of whose views are not scaleable never fails,
    and leaves every entry with scale signal 0 and scale 128 by 128, whatever
    scaling the objects asked for; in every [fill] that returns, an entry
    with FixedPriority keeps its priority and any other entry gets the
    priority band of its y coordinate. *)
Theorem fill_resolves_scale_and_priority (a : GfxAnimate) (w : World) (c : Z) :
  ((forall e, In e (a_list a) -> isScaleable (getView E (viewId e)) = false) ->
   exists a' w' c',
     fill a w c = Ret (a', w', c')
     /\ Forall (fun e => scaleSignal e = 0 /\ scaleX e = 128 /\ scaleY e = 128)
               (a_list a'))
  /\ (forall a' w' c',
         fill a w c = Ret (a', w', c') ->
         Forall2
           (fun e e' =>
              priority e'
              = (if has (signal e) (kSignalFixedPriority E) then priority e
                 else toInt16 (kernelCoordinateToPriority E (y e))))
           (a_list a) (a_list a')).
Proof.
  split.
  - intros Hviews.
    assert (Hloop : forall l w0 c0,
               (forall e, In e l ->
                          isScaleable (getView E (viewId e)) = false) ->
               exists l' w' c',
                 fillLoop l w0 c0 = Ret (l', w', c')
                 /\ Forall (fun e => scaleSignal e = 0 /\ scaleX e = 128
                                     /\ scaleY e = 128) l').
    { induction l as [| e t IH]; intros w0 c0 Hv.
      - exists [], w0, c0. split; [reflexivity | constructor].
      - assert (He : exists e1 w1 c1, fillEntry w0 c0 e = Ret (e1, w1, c1)).
        { unfold fillEntry.
          destruct (adjustInvalidCels _ w0 e) as [ea wa].
          unfold processViewScaling. rewrite (Hv e (or_introl eq_refl)).
          cbn [negb bind].
          destruct (setNsRect _ wa _) as [e3 w3].
          destruct (negb (has (signal e3) (kSignalFixedPriority E)));
            eexists; eexists; eexists; reflexivity. }
        destruct He as (e1 & w1 & c1 & He).
        destruct (IH w1 c1 (fun x Hx => Hv x (or_intror Hx)))
          as (t1 & w2 & c2 & Ht & Hall).
        exists (e1 :: t1), w2, c2. cbn [fillLoop]. rewrite He. cbn [bind].
        rewrite Ht. cbn [bind]. split; [reflexivity |].
        constructor; [| exact Hall].
        apply fillEntry_shape in He.
        destruct He as (l0 & cl0 & sig & sx & sy & r & -> & Hunit).
        destruct (Hunit (Hv e (or_introl eq_refl))) as (-> & -> & ->).
        repeat split. }
    destruct (Hloop (a_list a) w c Hviews) as (l' & w' & c' & Hl & Hall).
    exists (mkAnimate l' (a_lastCastData a)), w', c'.
    unfold fill. rewrite Hl. cbn [bind]. split; [reflexivity | exact Hall].
  - intros a' w' c' H. unfold fill in H.
    destruct (fillLoop (a_list a) w c) as [[[l wl] cl] | |] eqn:Hloop;
      cbn [bind] in H; try discriminate.
    injection H as <- _ _. cbn [a_list].
    eapply fillLoop_Forall2; [| exact Hloop].
    intros w0 w1 c0 c1 e e' He. apply fillEntry_shape in He.
    destruct He as (l0 & cl0 & sig & sx & sy & r & -> & _). reflexivity.
Qed.


(** ** What the list builder reads *)




(** ** Finalisation without disposals *)

Lemma signalsWritten_other (l : list AnimateEntry) (w : World) (o : reg_t)
    (s : Selector) :
  s <> s_signal \/ ~ In o (map object l) ->
  selectors (signalsWritten l w) o s = selectors w o s.
Proof.
  revert w. induction l as [| e t IH]; intros w Hos; [reflexivity |].
  cbn [signalsWritten fold_left]. fold (signalsWritten t).
  rewrite IH by (cbn in Hos; tauto).
  unfold writeSelectorValue. rewrite selectors_writeSelector.
  destruct (o =? object e) eqn:Ho, (Selector_eqb s s_signal) eqn:Hs;
    cbn [andb]; try reflexivity.
  apply Z.eqb_eq in Ho. apply Selector_eqb_eq in Hs. subst.
  cbn in Hos. tauto.
Qed.

Lemma signalsWritten_read (l : list AnimateEntry) (w : World) :
  NoDup (map object l) ->
  Forall (fun e => 0 <= signal e < 65536) l ->
  Forall (fun e => readSelectorValue (signalsWritten l w) (object e) s_signal
                   = signal e) l.
Proof.
  revert w. induction l as [| e t IH]; intros w Hnd Hall; [constructor |].
  cbn in Hnd. apply NoDup_cons_iff in Hnd. destruct Hnd as [Hnotin Hnd].
  apply Forall_cons_iff in Hall. destruct Hall as [He Hall].
  cbn [signalsWritten fold_left]. fold (signalsWritten t).
  constructor; [| now apply IH].
  unfold readSelectorValue.
  rewrite signalsWritten_other by (right; exact Hnotin).
  fold (readSelectorValue
          (writeSelectorValue w (object e) s_signal (signal e))
          (object e) s_signal).
  rewrite readSelectorValue_write_same. now apply toUint16_small.
Qed.

Lemma set_signal_same (e : AnimateEntry) : set_signal e (signal e) = e.
Proof. now destruct e. Qed.

(** The restore loop over entries whose objects are distinct, whose signals
    are the ones their objects hold, and none of which is to be disposed
    of. *)
Lemma forEach_restoreEntry_quiet (m : list AnimateEntry) :
  forall v,
    NoDup (map object m) ->
    Forall (fun e => readSelectorValue v (object e) s_signal = signal e
                     /\ has (signal e) (kSignalDisposeMe E) = false) m ->
    fst (forEach restoreEntry m v) = m
    /\ calls (snd (forEach restoreEntry m v))
       = calls v
         ++ map (fun e => BitsRestore (readSelector v (object e) s_underBits))
                (filter restorable m)
    /\ (forall o s, s <> s_underBits ->
                    selectors (snd (forEach restoreEntry m v)) o s
                    = selectors v o s)
    /\ (forall o, In o (map object (filter restorable m)) ->
                  selectors (snd (forEach restoreEntry m v)) o s_underBits = 0)
    /\ (forall o, ~ In o (map object (filter restorable m)) ->
                  selectors (snd (forEach restoreEntry m v)) o s_underBits
                  = selectors v o s_underBits).
Proof.
  induction m as [| e t IH]; intros v Hnd Hall.
  - cbn. repeat split; try contradiction. now rewrite app_nil_r.
  - cbn in Hnd. apply NoDup_cons_iff in Hnd. destruct Hnd as [Hnotin Hnd].
    apply Forall_cons_iff in Hall. destruct Hall as [[Hsig Hdisp] Hall].
    cbn [forEach]. rewrite restoreEntry_words, Hsig, set_signal_same.
    unfold disposedWorld. rewrite Hdisp. unfold restoredWorld.
    fold (restorable e). cbn [filter].
    destruct (restorable e) eqn:Hr.
    + set (v1 := writeSelectorValue
                   (emit v (BitsRestore (readSelector v (object e) s_underBits)))
                   (object e) s_underBits 0).
      assert (Hsel : forall o s, s <> s_underBits ->
                                 selectors v1 o s = selectors v o s).
      { intros o s Hs. subst v1. unfold writeSelectorValue.
        rewrite selectors_writeSelector.
        destruct (Selector_eqb s s_underBits) eqn:Hq;
          [apply Selector_eqb_eq in Hq; contradiction |].
        now rewrite andb_false_r. }
      assert (Hub : forall o, o <> object e ->
                              selectors v1 o s_underBits
                              = selectors v o s_underBits).
      { intros o Ho. subst v1. unfold writeSelectorValue.
        rewrite selectors_writeSelector.
        replace (o =? object e) with false
          by (symmetry; now apply Z.eqb_neq).
        reflexivity. }
      assert (Hall1 : Forall
                (fun e' => readSelectorValue v1 (object e') s_signal = signal e'
                           /\ has (signal e') (kSignalDisposeMe E) = false) t).
      { rewrite Forall_forall in *. intros e' He'.
        destruct (Hall e' He') as [H1 H2]. split; [| exact H2].
        unfold readSelectorValue in *. rewrite Hsel by discriminate.
        exact H1. }
      destruct (IH v1 Hnd Hall1) as (I1 & I2 & I3 & I4 & I5).
      destruct (forEach restoreEntry t v1) as [t' v'].
      cbn [fst snd] in *. subst t'.
      split; [reflexivity |]. split; [| split; [| split]].
      * rewrite I2. subst v1. rewrite calls_writeSelectorValue, calls_emit.
        rewrite <- app_assoc. cbn [map app]. do 2 f_equal.
        apply map_ext_in. intros e' He'. f_equal.
        apply filter_In in He'. destruct He' as [He' _].
        unfold readSelector. apply Hub.
        intros Heq. apply Hnotin. rewrite <- Heq. now apply in_map.
      * intros o s Hs. now rewrite I3, Hsel.
      * intros o Hin. cbn [map] in Hin.
        destruct (in_dec Z.eq_dec o (map object (filter restorable t)))
          as [Hin' | Hnin']; [now apply I4 |].
        destruct Hin as [<- | Hin]; [| contradiction].
        rewrite I5 by assumption. subst v1. unfold writeSelectorValue.
        rewrite selectors_writeSelector, Z.eqb_refl. reflexivity.
      * intros o Hnin. cbn [map] in Hnin.
        rewrite I5 by (intros Hc; apply Hnin; now right).
        apply Hub. intros Heq. apply Hnin. now left.
    + destruct (IH v Hnd Hall) as (I1 & I2 & I3 & I4 & I5).
      destruct (forEach restoreEntry t v) as [t' v'].
      cbn [fst snd] in *. subst t'. repeat split; assumption.
Qed.

(** X12: on a working list of distinct objects with 16-bit signals none of
    which has DisposeMe, [restoreAndDelete] runs no script and changes no
    entry; it puts back the backgrounds of exactly the entries with neither
    NoUpdate nor RemoveView, last entry first (the reverse of the order in
    which [drawCels] saved them), each with the handle its object held, and
    leaves those objects' underBits at 0 and every object's signal equal to
    its entry's. *)
Theorem restoreAndDelete_restores_in_reverse (a : GfxAnimate) (w : World)
    (Hdistinct : NoDup (map object (a_list a)))
    (Hsignals : Forall (fun e => 0 <= signal e < 65536
                                 /\ has (signal e) (kSignalDisposeMe E) = false)
                       (a_list a)) :
  fst (restoreAndDelete a w) = a
  /\ calls (snd (restoreAndDelete a w))
     = calls w
       ++ map (fun e => BitsRestore (readSelector w (object e) s_underBits))
              (rev (filter restorable (a_list a)))
  /\ Forall (fun e =>
               readSelectorValue (snd (restoreAndDelete a w)) (object e)
                 s_signal = signal e
               /\ (restorable e = true ->
                   readSelector (snd (restoreAndDelete a w)) (object e)
                     s_underBits = 0))
            (a_list a).
Proof.
  set (l := a_list a) in *.
  set (wW := signalsWritten l w).
  assert (Hread : Forall (fun e => readSelectorValue wW (object e) s_signal
                                   = signal e) l).
  { apply signalsWritten_read; [assumption |].
    eapply Forall_impl; [| exact Hsignals]. now intros e [H _]. }
  assert (Hinv : Forall
            (fun e => readSelectorValue wW (object e) s_signal = signal e
                      /\ has (signal e) (kSignalDisposeMe E) = false) (rev l)).
  { rewrite Forall_forall in *. intros e He. apply in_rev in He.
    split; [now apply Hread | now apply Hsignals]. }
  assert (Hnd : NoDup (map object (rev l)))
    by (rewrite map_rev; now apply NoDup_rev).
  destruct (forEach_restoreEntry_quiet (rev l) wW Hnd Hinv)
    as (I1 & I2 & I3 & I4 & I5).
  assert (Hrun : restoreAndDelete a w
                 = (mkAnimate (rev (fst (forEach restoreEntry (rev l) wW)))
                      (a_lastCastData a),
                    snd (forEach restoreEntry (rev l) wW))).
  { unfold restoreAndDelete. fold l. rewrite forEach_writeSignal. fold wW.
    unfold forEachRev. now destruct (forEach restoreEntry (rev l) wW). }
  rewrite Hrun. cbn [fst snd]. rewrite I1, rev_involutive.
  split; [subst l; now destruct a |]. split.
  - rewrite I2, filter_rev.
    assert (Hcalls : calls wW = calls w).
    { subst wW. clear. generalize l. intros l0. revert w.
      induction l0 as [| h t IH]; intros w; [reflexivity |].
      cbn [signalsWritten fold_left]. fold (signalsWritten t).
      now rewrite IH. }
    rewrite Hcalls. f_equal. apply map_ext. intros e. f_equal.
    unfold readSelector. subst wW. apply signalsWritten_other.
    left. discriminate.
  - rewrite Forall_forall in *. intros e He. split.
    + unfold readSelectorValue. rewrite I3 by discriminate.
      now apply Hread.
    + intros Hr. unfold readSelector. apply I4.
      apply in_map, filter_In. split; [now apply -> in_rev | exact Hr].
Qed.

(** ** The no-update loops of [update] *)


(** ** One draw per entry *)

(** X14: through the loops that draw ([update]'s always-update loop, its
    save and draw loops for no-update cels, and [drawCels]), an entry's cel
    is drawn at most once in a frame, whatever its signal and whatever
    happens to the world between the loops; and it is marked as shown
    whenever it was drawn. *)
Theorem entry_drawn_at_most_once (Hflags : FlagsOk) (e : AnimateEntry)
    (w2 w3 w4 w5 : World) :
  let e2 := fst (updateAlways w2 e) in
  let e3 := fst (updateSave w3 e2) in
  let e4 := fst (updateDraw w4 e3) in
  let e5 := fst (fst (drawCelsEntry w5 e4)) in
  exists n2 n4 n5,
    drawCount (calls (snd (updateAlways w2 e)))
    = (drawCount (calls w2) + n2)%nat
    /\ drawCount (calls (snd (updateSave w3 e2))) = drawCount (calls w3)
    /\ drawCount (calls (snd (updateDraw w4 e3)))
       = (drawCount (calls w4) + n4)%nat
    /\ drawCount (calls (snd (fst (drawCelsEntry w5 e4))))
       = (drawCount (calls w5) + n5)%nat
    /\ (n2 + n4 + n5 <= 1)%nat
    /\ (n2 + n4 + n5 = 1 -> showBitsFlag e5 = true)%nat.
Proof.
  pose proof (flagsApart Hflags 0 5 ltac:(lia)) as HSA.
  pose proof (flagsApart Hflags 1 5 ltac:(lia)) as HVA.
  pose proof (flagsApart Hflags 2 5 ltac:(lia)) as HNA.
  pose proof (flagsApart Hflags 5 6 ltac:(lia)) as HAF.
  pose proof (flagsApart Hflags 5 7 ltac:(lia)) as HAR.
  pose proof (flagsApart Hflags 2 7 ltac:(lia)) as HNR.
  pose proof (flagsApart Hflags 3 7 ltac:(lia)) as HHR.
  cbn in HSA, HVA, HNA, HAF, HAR, HNR, HHR.
  apply disjoint_sym in HAF. apply disjoint_sym in HAR.
  apply disjoint_sym in HNR. apply disjoint_sym in HHR.
  destruct (flag16 Hflags (kSignalNoUpdate E) ltac:(cbn; tauto)) as [HN16 _].
  destruct (flag16 Hflags (kSignalHidden E) ltac:(cbn; tauto)) as [HH16 _].
  destruct (flag16 Hflags (kSignalAlwaysUpdate E) ltac:(cbn; tauto))
    as [HA16 _].
  assert (Hmark : forall w0 x, drawCount (calls (markPriority w0 x))
                               = drawCount (calls w0)).
  { intros w0 x. rewrite calls_markPriority, drawCount_app.
    destruct (has (signal x) (kSignalIgnoreActor E)); cbn; lia. }
  assert (Hdraw : forall w0 x, drawCount (calls (drawEntry w0 x))
                               = (drawCount (calls w0) + 1)%nat).
  { intros w0 x. unfold drawEntry. rewrite calls_emit, drawCount_app.
    reflexivity. }
  cbv zeta.
  destruct (has (signal e) (kSignalAlwaysUpdate E)) eqn:Ha.
  - (* drawn by the always-update loop *)
    rewrite (updateAlways_draws w2 e Ha). cbn [fst snd].
    set (e2 := set_signal (set_showBitsFlag e true)
                 (clearBits (signal e) updateClearedMask)).
    destruct (cleared_always (signal e)) as (_ & _ & Hn2 & _).
    assert (Ha2 : has (signal e2) (kSignalAlwaysUpdate E) = true).
    { subst e2. cbn [signal set_signal].
      rewrite has_cleared_always by assumption. exact Ha. }
    rewrite (updateSave_skips w3 e2 Hn2). cbn [fst snd].
    rewrite (updateDraw_skips w4 e2 Hn2). cbn [fst snd].
    rewrite drawCelsEntry_cases.
    replace (drawable e2) with false
      by (unfold drawable; rewrite Ha2; now rewrite andb_false_r).
    cbn [fst snd]. exists 1%nat, 0%nat, 0%nat.
    rewrite Hmark, Hdraw. repeat split; lia.
  - replace (updateAlways w2 e) with (e, w2)
      by (unfold updateAlways; now rewrite Ha).
    cbn [fst snd].
    destruct (has (signal e) (kSignalNoUpdate E)) eqn:Hn.
    + (* a no-update cel *)
      assert (Hsave : exists s3 w3',
                 updateSave w3 e = (set_signal e s3, w3')
                 /\ has s3 (kSignalNoUpdate E) = true
                 /\ has s3 (kSignalHidden E) = has (signal e) (kSignalHidden E)
                 /\ drawCount (calls w3') = drawCount (calls w3)).
      { unfold updateSave, bitsSave. rewrite Hn.
        destruct (has (signal e) (kSignalHidden E)) eqn:Hh.
        - exists (setBits (signal e) (kSignalRemoveView E)), w3.
          rewrite !has_setBits_other by (auto using disjoint_sym).
          now repeat split.
        - eexists. eexists. split; [reflexivity |].
          rewrite !has_clearBits_other by (auto using disjoint_sym).
          repeat split; try assumption.
          cbn. rewrite drawCount_app. cbn. lia. }
      destruct Hsave as (s3 & w3' & -> & Hn3 & Hh3 & Hc3). cbn [fst snd].
      set (e3 := set_signal e s3).
      unfold updateDraw at 1 2 3. cbn [signal set_signal]. fold e3.
      change (signal e3) with s3. rewrite Hn3.
      destruct (has s3 (kSignalHidden E)) eqn:Hh; cbn [negb andb fst snd].
      * rewrite drawCelsEntry_cases.
        replace (drawable e3) with false
          by (unfold drawable; cbn [signal e3 set_signal]; now rewrite Hn3).
        cbn [fst snd]. exists 0%nat, 0%nat, 0%nat. repeat split; lia.
      * rewrite drawCelsEntry_cases.
        replace (drawable (set_showBitsFlag e3 true)) with false
          by (unfold drawable; cbn [signal e3 set_signal set_showBitsFlag];
              now rewrite Hn3).
        cbn [fst snd]. exists 0%nat, 1%nat, 0%nat.
        rewrite Hmark, Hdraw. repeat split; lia.
    + rewrite (updateSave_skips w3 e Hn). cbn [fst snd].
      rewrite (updateDraw_skips w4 e Hn). cbn [fst snd].
      rewrite drawCelsEntry_cases.
      destruct (drawable e) eqn:Hd; cbn [fst snd].
      * exists 0%nat, 0%nat, 1%nat.
        rewrite calls_emit, drawCount_app. cbn [bitsSave fst snd].
        cbn [calls writeSelector set_selectors].
        rewrite calls_emit, drawCount_app. cbn [drawCount].
        repeat split; try lia.
        intros _. unfold drawnEntry.
        destruct (has (signal e) (kSignalRemoveView E)); reflexivity.
      * exists 0%nat, 0%nat, 0%nat. repeat split; lia.
Qed.

End Animate.

(** * Concrete runs *)

(** C4 at the spec's test data: loop -1 of 4 resolves to 3 with nothing
    written, loop 9 of 4 resolves to 0 and is written back. *)
Lemma adjustInvalidCels_clamps_witness :
  loopNo (fst (adjustInvalidCels sampleView emptyWorld
                 (set_loopNo (sampleEntry 1 150 0 0) (-1)))) = 4 - 1
  /\ loopNo (fst (adjustInvalidCels sampleView emptyWorld
                    (set_loopNo (sampleEntry 1 150 0 0) 9))) = 0.
Proof.
  pose proof (adjustInvalidCels_clamps sampleView emptyWorld
                (set_loopNo (sampleEntry 1 150 0 0) (-1))
                ltac:(simpl; lia) ltac:(intros; simpl; lia)) as Hneg.
  pose proof (adjustInvalidCels_clamps sampleView emptyWorld
                (set_loopNo (sampleEntry 1 150 0 0) 9)
                ltac:(simpl; lia) ltac:(intros; simpl; lia)) as Hbig.
  cbv zeta in Hneg, Hbig.
  destruct Hneg as (_ & Hneg & _). destruct Hbig as (Hbig & _).
  split.
  - apply Hneg. simpl. lia.
  - apply Hbig. simpl. lia.
Defined.



(** ** The sample sort and the sample masks *)




Lemma sampleEnv_flags (scripts : World -> reg_t -> Selector -> World)
    (fastCast : bool) : FlagsOk (sampleEnv scripts fastCast).
Proof.
  constructor.
  - intros m Hin. cbn in Hin. unfold mask16.
    repeat (destruct Hin as [<- | Hin]; [lia |]). contradiction.
  - intros i j Hij.
    do 11 (destruct i as [| i];
           [do 11 (destruct j as [| j]; [try lia; reflexivity |]); lia |]).
    lia.
Qed.

(** ** The claims at concrete inputs *)




(** C3, where the claim fails: with the picture not valid at level 2 the
    stale background of a NoUpdate entry is restored, not freed. *)
Lemma update_restores_when_invalid_at_level_2 :
  picNotValid (staleWorld 2) = 2
  /\ calls (snd (forEachRev (updateRemove plainEnv) [sampleEntry 1 150 4 0]
                   (staleWorld 2)))
     = [BitsRestore 77]
  /\ calls (snd (update plainEnv (mkAnimate [sampleEntry 1 150 4 0] [])
                   (staleWorld 2)))
     = [ BitsRestore 77;
         BitsSave (mkRect 0 0 10 40) 7 1001;
         DrawCel 7 0 0 (mkRect 0 0 10 40) 0 0 128 128 None;
         FillRect (mkRect 0 0 10 40) 4 0 0 15 ].
Proof.
  repeat split; vm_compute; reflexivity.
Qed.

(** C3 on a single NoUpdate entry, the picture being not valid at level 1:
    the background is freed. *)
Lemma update_removes_stale_witness :
  exists e1 w1,
    forEachRev (updateRemove plainEnv) [sampleEntry 1 150 4 0] (staleWorld 1)
    = ([e1], w1)
    /\ has (signal e1) (kSignalForceUpdate plainEnv) = false
    /\ (exists post, calls w1 = [BitsFree 77] ++ post)
    /\ readSelector w1 1 s_underBits = 0.
Proof.
  destruct (update_removes_stale plainEnv (sampleEnv_flags idleScripts false)
              (staleWorld 1) [] [] (sampleEntry 1 150 4 0) eq_refl)
    as (b1 & e1 & a1 & w1 & wAt & H & Hb1 & Hat & Hf & _ & _ & Hrm).
  destruct b1; [| discriminate].
  injection Hat as <- <-.
  destruct (Hrm eq_refl) as (Hcalls & Hzero & _).
  exists e1, w1. cbn [app] in H. repeat split; assumption.
Defined.

(** C6 with a meddling disposal: object 2 is disposed of first (the walk
    runs from the end) and its script sets NoUpdate on object 1, whose
    background is then not restored, although the signal written for it a
    moment before had no NoUpdate. *)
Lemma restoreAndDelete_rereads_witness :
  (exists a1 wAt b1 w1,
      forEachRev (restoreEntry meddleEnv) [sampleEntry 2 150 32768 0]
        (signalsWritten
           [sampleEntry 1 150 0 0; sampleEntry 2 150 32768 0] (staleWorld 0))
      = (a1, wAt)
      /\ readSelectorValue wAt 1 s_signal = 4
      /\ restoreAndDelete meddleEnv
           (mkAnimate [sampleEntry 1 150 0 0; sampleEntry 2 150 32768 0] [])
           (staleWorld 0)
         = (mkAnimate (b1 ++ set_signal (sampleEntry 1 150 0 0) 4 :: a1) [],
            w1))
  /\ calls (snd (restoreAndDelete meddleEnv
                   (mkAnimate
                      [sampleEntry 1 150 0 0; sampleEntry 2 150 32768 0] [])
                   (staleWorld 0)))
     = [BitsRestore 0].
Proof.
  split; [| vm_compute; reflexivity].
  destruct (restoreAndDelete_rereads meddleEnv
              (mkAnimate [sampleEntry 1 150 0 0; sampleEntry 2 150 32768 0] [])
              (staleWorld 0) [] [sampleEntry 2 150 32768 0]
              (sampleEntry 1 150 0 0) eq_refl)
    as (_ & _ & a1 & wAt & b1 & w1 & Hat & H).
  cbv zeta in H. destruct H as (_ & _ & H).
  cbn [a_list a_lastCastData] in Hat, H.
  change (object (sampleEntry 1 150 0 0)) with 1 in H.
  assert (Hs : readSelectorValue wAt 1 s_signal = 4).
  { apply (f_equal snd) in Hat. cbn [snd] in Hat. rewrite <- Hat.
    vm_compute. reflexivity. }
  rewrite Hs in H.
  exists a1, wAt, b1, w1. repeat split; assumption.
Defined.

(** C9 on three entries: StopUpdate alone counts, a clean signal does not,
    NoUpdate with Hidden counts. *)
Lemma fill_counts_invalidations_witness :
  exists a' w' c',
    fill plainEnv
      (mkAnimate [sampleEntry 1 150 1 0; sampleEntry 2 150 0 0;
                  sampleEntry 3 150 12 0] [])
      emptyWorld 0
    = Ret (a', w', c')
    /\ c' = 2.
Proof.
  destruct (fill plainEnv
              (mkAnimate [sampleEntry 1 150 1 0; sampleEntry 2 150 0 0;
                          sampleEntry 3 150 12 0] [])
              emptyWorld 0) as [[[a' w'] c'] | |] eqn:Hfill;
    [| vm_compute in Hfill; discriminate ..].
  destruct (fill_counts_invalidations plainEnv _ a' emptyWorld w' 0 c'
              ltac:(lia) Hfill) as (Hc & _).
  exists a', w', c'. split; [reflexivity | exact Hc].
Defined.




(** ** The further properties at concrete inputs *)

(** X2 on a list of two objects and idle scripts. *)
Lemma invoke_runs_every_doit_witness :
  invoke plainEnv 2 (chainWorld 2) (mkList 1)
  = Ret (true, doitAll plainEnv (chainFrom 1 2) (chainWorld 2)).
Proof.
  apply (invoke_runs_every_doit plainEnv (chainWorld 2) (mkList 1)
           (chainFrom 1 2) 2).
  - intros w' o. repeat split. intros H. exact H.
  - apply (chainWorld_traversal 2 1 1); lia.
  - reflexivity.
  - reflexivity.
  - cbn. lia.
Defined.

(** X3 on a list of two frozen objects, under scripts that would abort. *)
Lemma invoke_skips_frozen_cast_witness :
  invoke abortEnv 2 (frozenWorld 2) (mkList 1) = Ret (true, frozenWorld 2).
Proof.
  apply (invoke_skips_frozen_cast abortEnv (frozenWorld 2) (mkList 1)
           (chainFrom 1 2) 2).
  - apply (Traversal_same_nodes (chainWorld 2)); [reflexivity |].
    apply (chainWorld_traversal 2 1 1); lia.
  - reflexivity.
  - repeat constructor.
  - cbn. lia.
Defined.

(** X4 on a list of two objects. *)
Lemma kernelAnimate_restores_port_witness :
  exists a' w',
    kernelAnimate plainEnv 5 (mkAnimate [] []) (chainWorld 2) 1 false
    = Ret (a', w')
    /\ curPort w' = samplePort
    /\ throttleTrigger w' = true.
Proof.
  destruct (kernelAnimate plainEnv 5 (mkAnimate [] []) (chainWorld 2) 1 false)
    as [[a' w'] | |] eqn:Hrun; [| vm_compute in Hrun; discriminate ..].
  destruct (kernelAnimate_restores_port plainEnv 5 _ a' (chainWorld 2) w' 1
              eq_refl Hrun) as (Hport & Hthrottle & _).
  exists a', w'. repeat split; assumption.
Defined.

(** X5 on a drawable entry, a NoUpdate entry and a drawable entry with
    RemoveView. *)
Lemma drawCels_snapshot_witness :
  map object
    (a_lastCastData
       (fst (drawCels plainEnv
               (mkAnimate [sampleEntry 1 150 0 0; sampleEntry 2 150 4 0;
                           sampleEntry 3 150 128 0] [sampleEntry 9 150 0 0])
               emptyWorld)))
  = [1; 3].
Proof.
  destruct (drawCels_snapshot plainEnv (sampleEnv_flags idleScripts false)
              (mkAnimate [sampleEntry 1 150 0 0; sampleEntry 2 150 4 0;
                          sampleEntry 3 150 128 0] [sampleEntry 9 150 0 0])
              emptyWorld) as (_ & H & _).
  rewrite H. reflexivity.
Defined.

(** X7 on two entries, one of them with a loop number no view has. *)
Lemma addToPicDrawCels_draws_all_witness :
  exists a' w',
    addToPicDrawCels plainEnv
      (mkAnimate [set_loopNo (sampleEntry 1 150 0 0) 9;
                  sampleEntry 2 150 12 0] [])
      emptyWorld
    = Ret (a', w')
    /\ Forall2 sameCel
         [set_loopNo (sampleEntry 1 150 0 0) 9; sampleEntry 2 150 12 0]
         (a_list a')
    /\ paints 2 emptyWorld w'.
Proof.
  destruct (addToPicDrawCels plainEnv
              (mkAnimate [set_loopNo (sampleEntry 1 150 0 0) 9;
                          sampleEntry 2 150 12 0] [])
              emptyWorld) as [[a' w'] | |] eqn:Hrun;
    [| vm_compute in Hrun; discriminate ..].
  destruct (addToPicDrawCels_draws_all plainEnv _ a' emptyWorld w' Hrun)
    as (Hcels & Hpaints & _).
  exists a', w'. split; [reflexivity |]. split; assumption.
Defined.


(** X12 on three objects holding the backgrounds 71, 72, 73, the second
    with NoUpdate: 73 is restored first, then 71. *)
Lemma restoreAndDelete_restores_in_reverse_witness :
  calls (snd (restoreAndDelete plainEnv
                (mkAnimate [sampleEntry 1 150 0 0; sampleEntry 2 150 4 0;
                            sampleEntry 3 150 0 0] [])
                threeBackgrounds))
  = [BitsRestore 73; BitsRestore 71].
Proof.
  destruct (restoreAndDelete_restores_in_reverse plainEnv
              (mkAnimate [sampleEntry 1 150 0 0; sampleEntry 2 150 4 0;
                          sampleEntry 3 150 0 0] [])
              threeBackgrounds) as (_ & H & _).
  - cbn. repeat constructor; cbn; intuition lia.
  - repeat constructor; cbn; lia.
  - rewrite H. reflexivity.
Defined.


(** X14 on an entry with AlwaysUpdate and NoUpdate. *)
Lemma entry_drawn_at_most_once_witness :
  exists n2 n4 n5,
    drawCount (calls (snd (updateAlways plainEnv emptyWorld
                             (sampleEntry 1 150 36 0))))
    = (drawCount (calls emptyWorld) + n2)%nat
    /\ (n2 + n4 + n5 <= 1)%nat.
Proof.
  destruct (entry_drawn_at_most_once plainEnv
              (sampleEnv_flags idleScripts false) (sampleEntry 1 150 36 0)
              emptyWorld emptyWorld emptyWorld emptyWorld)
    as (n2 & n4 & n5 & H2 & _ & _ & _ & Hle & _).
  exists n2, n4, n5. split; assumption.
Defined.
